(** * fieldpath/value.go: addressable values over Go's reflection

    A shallow embedding of
    [vendor/github.com/gardener/controller-manager-library/pkg/fieldpath/value.go]:
    the interface [value] and its two implementations, [reflectValue] (a
    [reflect.Value] used as it is) and [mapEntry] (the entry of a map under a
    key, with a pointer to a cached "effective element").

    Every method of the file is a one- or two-line call into package
    [reflect], so the development starts with a model of the part of the Go
    runtime those calls touch (module [Reflect]): types and kinds, values in
    memory, map objects, [reflect.Value] with its addressable and
    non-addressable forms, and the panics of the methods.  The methods of
    value.go are then transcribed line by line over that model. *)

From stdpp Require Import base decidable option list strings numbers.

Set Warnings "-register-all".

Open Scope Z_scope.
Open Scope nat_scope.
Open Scope string_scope.
Open Scope list_scope.

(** ** Panics and results *)

(** [reflect.Kind], for the types of the model; [KInvalid] is the kind of
    the zero Value. *)
Inductive kind :=
| KInvalid | KBool | KInt | KString | KPtr | KStruct | KMap | KSlice | KInterface.

(** The methods of value.go return no error: they panic.  [Unmodelled] is not
    a Go panic: it is the outcome of the model where it describes no Go
    execution (a dangling address, a value that is not of its type, a type
    outside the universe of types below). *)
Inductive panic :=
| ValueError (method : string) (k : kind)
    (* reflect: call of reflect.Value.<method> on <kind> Value *)
| Unaddressable        (* reflect.Value.Set using unaddressable value *)
| NotAssignable        (* value of type T is not assignable to type U *)
| ElemOfInvalidType    (* reflect: Elem of invalid type *)
| NilMapAssignment     (* assignment to entry in nil map *)
| Unhashable           (* runtime error: hash of unhashable type *)
| IndexOutOfRange      (* reflect: field or slice index out of range *)
| NilDereference       (* runtime error: invalid memory address *)
| Unmodelled.

Inductive result (A : Type) :=
| Ok (a : A)
| Panic (e : panic).
Arguments Ok {A} a.
Arguments Panic {A} e.

#[global] Instance result_ret : MRet result := λ A a, Ok a.
#[global] Instance result_bind : MBind result :=
  λ A B f m, match m with Ok a => f a | Panic e => Panic e end.

Definition expect {A} (o : option A) : result A :=
  match o with Some a => Ok a | None => Panic Unmodelled end.

Module Reflect.

(** ** Types (reflect.Type) *)

(** The types of the model: three scalar types, pointers, maps, slices,
    named structs with exported fields, and the empty interface. *)
Inductive rtype :=
| TBool
| TInt
| TString
| TPtr (t : rtype)
| TMap (k e : rtype)
| TSlice (e : rtype)
| TStruct (name : string) (fields : list (string * rtype))
| TInterface.

Definition rtype_eq_dec : ∀ x y : rtype, {x = y} + {x ≠ y}.
Proof.
  fix IH 1. intros x y. decide equality.
  - apply List.list_eq_dec. intros [n1 t1] [n2 t2].
    destruct (String.string_dec n1 n2) as [->|]; [|right; congruence].
    destruct (IH t1 t2) as [->|]; [left; reflexivity|right; congruence].
  - apply String.string_dec.
Defined.

#[global] Instance rtype_eqdec : EqDecision rtype := rtype_eq_dec.

Definition Type_Kind (t : rtype) : kind :=
  match t with
  | TBool => KBool
  | TInt => KInt
  | TString => KString
  | TPtr _ => KPtr
  | TMap _ _ => KMap
  | TSlice _ => KSlice
  | TStruct _ _ => KStruct
  | TInterface => KInterface
  end.

(** [Type.Elem]: the element type of a map, pointer or slice type; it panics
    for the other kinds. *)
Definition Type_Elem (t : rtype) : result rtype :=
  match t with
  | TPtr e => Ok e
  | TMap _ e => Ok e
  | TSlice e => Ok e
  | _ => Panic ElemOfInvalidType
  end.

(** Assignability, for this universe of types: identical types, or any type
    to the empty interface. *)
Definition assignable (dst src : rtype) : bool :=
  bool_decide (dst = src) || bool_decide (dst = TInterface).

(** ** Values in memory *)

(** An address is a memory object and a path of field or element indices
    into it. *)
Definition addr : Type := nat * list nat.

Inductive gval :=
| VBool (b : bool)
| VInt (n : Z)
| VString (s : string)
| VPtr (p : option addr)                  (* nil, or the address pointed to *)
| VMap (m : option nat)                   (* nil, or a map object *)
| VSlice (sl : option (nat * nat * nat))  (* nil, or backing array, offset, length *)
| VStruct (fs : list gval)
| VArr (es : list gval)                   (* a backing array of a slice *)
| VIface (i : option (rtype * gval)).     (* nil, or dynamic type and value *)

(** An interface value ([interface{}]): nil, or a dynamic type and a value. *)
Definition eface : Type := option (rtype * gval).

Definition gval_eq_dec : ∀ x y : gval, {x = y} + {x ≠ y}.
Proof.
  fix IH 1. intros x y.
  decide equality; try solve [apply List.list_eq_dec, IH].
  - apply Bool.bool_dec.
  - apply Z.eq_dec.
  - apply String.string_dec.
  - decide equality. decide equality.
    + apply List.list_eq_dec, Nat.eq_dec.
    + apply Nat.eq_dec.
  - decide equality. apply Nat.eq_dec.
  - decide equality. decide equality; try apply Nat.eq_dec.
    decide equality; apply Nat.eq_dec.
  - decide equality. decide equality. apply rtype_eq_dec.
Defined.

#[global] Instance gval_eqdec : EqDecision gval := gval_eq_dec.

(** The zero value of a type. *)
Fixpoint zero_val (t : rtype) : gval :=
  match t with
  | TBool => VBool false
  | TInt => VInt 0
  | TString => VString ""
  | TPtr _ => VPtr None
  | TMap _ _ => VMap None
  | TSlice _ => VSlice None
  | TStruct _ fields => VStruct (map (λ f, zero_val (snd f)) fields)
  | TInterface => VIface None
  end.

(** Map keys are hashed: slices and maps cannot be, neither inside a struct
    nor as the dynamic value of an interface (a run-time panic). *)
Fixpoint hashable (x : gval) : bool :=
  match x with
  | VBool _ | VInt _ | VString _ | VPtr _ => true
  | VMap _ | VSlice _ | VArr _ => false
  | VStruct fs => forallb hashable fs
  | VIface None => true
  | VIface (Some (_, y)) => hashable y
  end.

(** ** Map objects *)

(** A map object: its entries, at most one per key. *)
Definition gomap : Type := list (gval * gval).

Fixpoint mapaccess (k : gval) (m : gomap) : option gval :=
  match m with
  | [] => None
  | (k', e) :: m' => if decide (k = k') then Some e else mapaccess k m'
  end.

Fixpoint mapassign (k e : gval) (m : gomap) : gomap :=
  match m with
  | [] => [(k, e)]
  | (k', e') :: m' =>
      if decide (k = k') then (k, e) :: m' else (k', e') :: mapassign k e m'
  end.

Fixpoint mapdelete (k : gval) (m : gomap) : gomap :=
  match m with
  | [] => []
  | (k', e') :: m' =>
      if decide (k = k') then mapdelete k m' else (k', e') :: mapdelete k m'
  end.

(** ** reflect.Value *)

(** A [reflect.Value] is the zero Value (invalid), a value held by copy (not
    addressable: what [ValueOf], [MapIndex] and the [Elem] of an interface
    return), or a typed reference to a place in memory (addressable: what the
    [Elem] of a pointer, the [Field] of an addressable struct and the [Index]
    of a slice return). *)
Inductive Value :=
| Zero
| Direct (t : rtype) (x : gval)
| Indirect (t : rtype) (a : addr).

Definition Value_eq_dec : ∀ x y : Value, {x = y} + {x ≠ y}.
Proof.
  decide equality; try apply rtype_eq_dec; try apply gval_eq_dec.
  decide equality; [apply List.list_eq_dec|]; apply Nat.eq_dec.
Defined.

#[global] Instance Value_eqdec : EqDecision Value := Value_eq_dec.

(** ** The state: memory, map objects, and cells holding a reflect.Value *)

(** [mem] holds the objects pointers and slices refer to, [maps] the map
    objects, [vals] the heap cells of type [reflect.Value] that a
    [*reflect.Value] points to (the variables whose address value.go takes
    escape to the heap). *)
Record state := mkState {
  mem : list gval;
  maps : list gomap;
  vals : list Value
}.

Fixpoint sub (x : gval) (p : list nat) : option gval :=
  match p with
  | [] => Some x
  | i :: p' =>
      match x with
      | VStruct ys | VArr ys => y ← ys !! i; sub y p'
      | _ => None
      end
  end.

Fixpoint upd (x : gval) (p : list nat) (new : gval) : option gval :=
  match p with
  | [] => Some new
  | i :: p' =>
      match x with
      | VStruct ys => y ← ys !! i; y' ← upd y p' new; Some (VStruct (<[i:=y']> ys))
      | VArr ys => y ← ys !! i; y' ← upd y p' new; Some (VArr (<[i:=y']> ys))
      | _ => None
      end
  end.

Definition load (s : state) (a : addr) : option gval :=
  x ← mem s !! a.1; sub x a.2.

Definition store (s : state) (a : addr) (new : gval) : option state :=
  x ← mem s !! a.1;
  x' ← upd x a.2 new;
  Some (mkState (<[a.1:=x']> (mem s)) (maps s) (vals s)).

(** [p := &v] for a variable [v] of type [reflect.Value] that escapes: a
    fresh cell. *)
Definition alloc (v : Value) (s : state) : nat * state :=
  (length (vals s), mkState (mem s) (maps s) (vals s ++ [v])).

(** [*p] *)
Definition deref (p : nat) (s : state) : result Value := expect (vals s !! p).

(** ** The methods of reflect.Value that value.go calls *)

Definition ValueOf (i : eface) : Value :=
  match i with
  | None => Zero
  | Some (t, x) => Direct t x
  end.

Definition Value_IsValid (v : Value) : bool :=
  match v with
  | Zero => false
  | _ => true
  end.

Definition Value_Kind (v : Value) : kind :=
  match v with
  | Zero => KInvalid
  | Direct t _ | Indirect t _ => Type_Kind t
  end.

Definition Value_Type (v : Value) : result rtype :=
  match v with
  | Zero => Panic (ValueError "Type" KInvalid)
  | Direct t _ | Indirect t _ => Ok t
  end.

(** What a valid Value holds now: its copy, or what memory has at its
    address. *)
Definition contents (v : Value) (s : state) : result gval :=
  match v with
  | Zero => Panic Unmodelled
  | Direct _ x => Ok x
  | Indirect _ a => expect (load s a)
  end.

(** [Interface]: a Value of interface kind returns the interface it holds,
    any other one is boxed with its type. *)
Definition Value_Interface (v : Value) (s : state) : result eface :=
  match v with
  | Zero => Panic (ValueError "Interface" KInvalid)
  | Direct t _ | Indirect t _ =>
      x ← contents v s;
      match t with
      | TInterface =>
          match x with
          | VIface i => Ok i
          | _ => Panic Unmodelled
          end
      | _ => Ok (Some (t, x))
      end
  end.

(** [Len]: the number of entries of a map, of elements of a slice, of bytes
    of a string; a panic for every other kind.  (For a pointer, recent Go
    releases panic with a plain message and not with a ValueError, and accept
    a pointer to an array, a type outside this universe.) *)
Definition Value_Len (v : Value) (s : state) : result nat :=
  match Value_Kind v with
  | KMap =>
      x ← contents v s;
      match x with
      | VMap None => Ok 0
      | VMap (Some m) => g ← expect (maps s !! m); Ok (length g)
      | _ => Panic Unmodelled
      end
  | KSlice =>
      x ← contents v s;
      match x with
      | VSlice None => Ok 0
      | VSlice (Some (_, _, n)) => Ok n
      | _ => Panic Unmodelled
      end
  | KString =>
      x ← contents v s;
      match x with
      | VString str => Ok (String.length str)
      | _ => Panic Unmodelled
      end
  | k => Panic (ValueError "Len" k)
  end.

Definition Value_IsNil (v : Value) (s : state) : result bool :=
  match Value_Kind v with
  | KPtr =>
      x ← contents v s;
      match x with
      | VPtr p => Ok (bool_decide (p = None))
      | _ => Panic Unmodelled
      end
  | KMap =>
      x ← contents v s;
      match x with
      | VMap m => Ok (bool_decide (m = None))
      | _ => Panic Unmodelled
      end
  | KSlice =>
      x ← contents v s;
      match x with
      | VSlice sl => Ok (bool_decide (sl = None))
      | _ => Panic Unmodelled
      end
  | KInterface =>
      x ← contents v s;
      match x with
      | VIface i => Ok (bool_decide (i = None))
      | _ => Panic Unmodelled
      end
  | k => Panic (ValueError "IsNil" k)
  end.

(** [Elem]: what an interface contains (a copy) or what a pointer points to
    (addressable); the zero Value when the interface or pointer is nil; a
    panic for every other kind. *)
Definition Value_Elem (v : Value) (s : state) : result Value :=
  match v with
  | Zero => Panic (ValueError "Elem" KInvalid)
  | Direct t _ | Indirect t _ =>
      match t with
      | TInterface =>
          x ← contents v s;
          match x with
          | VIface None => Ok Zero
          | VIface (Some (t', y)) => Ok (Direct t' y)
          | _ => Panic Unmodelled
          end
      | TPtr e =>
          x ← contents v s;
          match x with
          | VPtr None => Ok Zero
          | VPtr (Some a) => Ok (Indirect e a)
          | _ => Panic Unmodelled
          end
      | _ => Panic (ValueError "Elem" (Type_Kind t))
      end
  end.

(** [assignTo]: the value to store when [v] is assigned to a place of type
    [dst]: [v]'s own when the types are identical, [v] boxed when [dst] is the
    empty interface. *)
Definition assignTo (v : Value) (dst : rtype) (s : state) : result gval :=
  match v with
  | Zero => Panic NilDereference
  | Direct t _ | Indirect t _ =>
      if decide (dst = t) then contents v s
      else if decide (dst = TInterface) then
        x ← contents v s; Ok (VIface (Some (t, x)))
      else Panic NotAssignable
  end.

Definition Value_Set (v x : Value) (s : state) : result state :=
  match v with
  | Zero => Panic (ValueError "Set" KInvalid)
  | Direct _ _ => Panic Unaddressable
  | Indirect t a =>
      match x with
      | Zero => Panic (ValueError "Set" KInvalid)
      | _ => y ← assignTo x t s; expect (store s a y)
      end
  end.

(** [MapIndex]: a copy of the element under the key; the zero Value when the
    key is not in the map or the map is nil. *)
Definition Value_MapIndex (v key : Value) (s : state) : result Value :=
  match v with
  | Zero => Panic (ValueError "MapIndex" KInvalid)
  | Direct t _ | Indirect t _ =>
      match t with
      | TMap kt et =>
          k ← assignTo key kt s;
          x ← contents v s;
          match x with
          | VMap o =>
              if hashable k then
                match o with
                | None => Ok Zero
                | Some m =>
                    g ← expect (maps s !! m);
                    match mapaccess k g with
                    | None => Ok Zero
                    | Some e => Ok (Direct et e)
                    end
                end
              else Panic Unhashable
          | _ => Panic Unmodelled
          end
      | _ => Panic (ValueError "MapIndex" (Type_Kind t))
      end
  end.

Definition set_maps (s : state) (m : nat) (g : gomap) : state :=
  mkState (mem s) (<[m:=g]> (maps s)) (vals s).

(** [SetMapIndex]: assigns the element under the key; with the zero Value as
    element it deletes the key; it panics on a nil map. *)
Definition Value_SetMapIndex (v key elem : Value) (s : state) : result state :=
  match v with
  | Zero => Panic (ValueError "SetMapIndex" KInvalid)
  | Direct t _ | Indirect t _ =>
      match t with
      | TMap kt et =>
          match key with
          | Zero => Panic (ValueError "SetMapIndex" KInvalid)
          | _ =>
              k ← assignTo key kt s;
              x ← contents v s;
              match elem with
              | Zero =>
                  match x with
                  | VMap o =>
                      if hashable k then
                        match o with
                        | None => Ok s
                        | Some m =>
                            g ← expect (maps s !! m);
                            Ok (set_maps s m (mapdelete k g))
                        end
                      else Panic Unhashable
                  | _ => Panic Unmodelled
                  end
              | _ =>
                  e ← assignTo elem et s;
                  match x with
                  | VMap None => Panic NilMapAssignment
                  | VMap (Some m) =>
                      if hashable k then
                        g ← expect (maps s !! m);
                        Ok (set_maps s m (mapassign k e g))
                      else Panic Unhashable
                  | _ => Panic Unmodelled
                  end
              end
          end
      | _ => Panic (ValueError "SetMapIndex" (Type_Kind t))
      end
  end.

(** ** Navigation used by the callers of value.go *)

(** [Field]: the i-th field of a struct; addressable when the struct is. *)
Definition Value_Field (v : Value) (i : nat) : result Value :=
  match v with
  | Zero => Panic (ValueError "Field" KInvalid)
  | Direct (TStruct _ fields) x =>
      match fields !! i with
      | None => Panic IndexOutOfRange
      | Some (_, ft) =>
          match x with
          | VStruct ys => y ← expect (ys !! i); Ok (Direct ft y)
          | _ => Panic Unmodelled
          end
      end
  | Indirect (TStruct _ fields) (l, p) =>
      match fields !! i with
      | None => Panic IndexOutOfRange
      | Some (_, ft) => Ok (Indirect ft (l, p ++ [i]))
      end
  | Direct t _ | Indirect t _ => Panic (ValueError "Field" (Type_Kind t))
  end.

(** [Index], for slices: the i-th element, always addressable.  (The [Index]
    of a string is a byte, a type outside this universe.) *)
Definition Value_Index (v : Value) (i : nat) (s : state) : result Value :=
  match v with
  | Zero => Panic (ValueError "Index" KInvalid)
  | Direct t _ | Indirect t _ =>
      match t with
      | TSlice et =>
          x ← contents v s;
          match x with
          | VSlice None => Panic IndexOutOfRange
          | VSlice (Some (arr, off, n)) =>
              if decide (i < n) then Ok (Indirect et (arr, [off + i]))
              else Panic IndexOutOfRange
          | _ => Panic Unmodelled
          end
      | TString => Panic Unmodelled
      | _ => Panic (ValueError "Index" (Type_Kind t))
      end
  end.

(** [CanSet]: the Value is addressable. *)
Definition Value_CanSet (v : Value) : bool :=
  match v with
  | Indirect _ _ => true
  | _ => false
  end.

End Reflect.

Import Reflect.

(** * value.go *)

(** [type reflectValue reflect.Value] *)
Definition reflectValue : Type := Value.

(** [type mapEntry struct { host, key reflect.Value; elem *reflect.Value;
    name string }]: [elem] is a pointer, nil or the cell it points to. *)
Record mapEntry := mkMapEntry {
  host : Value;
  key : Value;
  elem : option nat;
  name : string
}.

(** [type value interface]: its two implementations. *)
Inductive value :=
| RV (this : reflectValue)
| ME (this : mapEntry).

(** Assignment to the field [elem] of the receiver, which the methods hold by
    value. *)
Definition set_elem (this : mapEntry) (p : option nat) : mapEntry :=
  mkMapEntry (host this) (key this) p (name this).

(** ** Methods of reflectValue *)

Definition reflectValue_Type (this : reflectValue) : result rtype :=
  Value_Type this.

Definition reflectValue_Interface (this : reflectValue) (s : state) : result eface :=
  Value_Interface this s.

Definition reflectValue_Kind (this : reflectValue) : kind :=
  Value_Kind this.

Definition reflectValue_Set (this : reflectValue) (v : Value) (s : state)
  : result (value * state) :=
  s ← Value_Set this v s;
  Ok (RV this, s).

Definition reflectValue_IsValid (this : reflectValue) : bool :=
  Value_IsValid this.

Definition reflectValue_Len (this : reflectValue) (s : state) : result nat :=
  Value_Len this s.

Definition reflectValue_IsNil (this : reflectValue) (s : state) : result bool :=
  Value_IsNil this s.

Definition reflectValue_Elem (this : reflectValue) (s : state) : result value :=
  e ← Value_Elem this s;
  Ok (RV e).

Definition reflectValue_Value (this : reflectValue) : Value := this.

(** ** Methods of mapEntry *)

Definition mapEntry_Type (this : mapEntry) (s : state) : result rtype :=
  match elem this with
  | None => t ← Value_Type (host this); Type_Elem t
  | Some p => e ← deref p s; Value_Type e
  end.

Definition mapEntry_Interface (this : mapEntry) (s : state) : result eface :=
  match elem this with
  | None => e ← Value_MapIndex (host this) (key this) s; Value_Interface e s
  | Some p => e ← deref p s; Value_Interface e s
  end.

Definition mapEntry_Kind (this : mapEntry) (s : state) : result kind :=
  t ← mapEntry_Type this s;
  Ok (Type_Kind t).

(** [this.elem = &v; this.host.SetMapIndex(this.key, v); return this] *)
Definition mapEntry_Set (this : mapEntry) (v : Value) (s : state)
  : result (value * state) :=
  let '(p, s) := alloc v s in
  let this := set_elem this (Some p) in
  s ← Value_SetMapIndex (host this) (key this) v s;
  Ok (ME this, s).

Definition mapEntry_Value (this : mapEntry) (s : state) : result Value :=
  match elem this with
  | None => Value_MapIndex (host this) (key this) s
  | Some p => deref p s
  end.

Definition mapEntry_IsValid (this : mapEntry) (s : state) : result bool :=
  v ← mapEntry_Value this s;
  Ok (Value_IsValid v).

Definition mapEntry_Len (this : mapEntry) (s : state) : result nat :=
  v ← mapEntry_Value this s;
  Value_Len v s.

Definition mapEntry_IsNil (this : mapEntry) (s : state) : result bool :=
  v ← mapEntry_Value this s;
  Value_IsNil v s.

(** [var e reflect.Value; if this.elem == nil { e = this.host.MapIndex(this.key) }
    else { e = this.elem.Elem() }; this.elem = &e; return this] *)
Definition mapEntry_Elem (this : mapEntry) (s : state)
  : result (value * state) :=
  e ← match elem this with
      | None => Value_MapIndex (host this) (key this) s
      | Some p => c ← deref p s; Value_Elem c s
      end;
  let '(p, s) := alloc e s in
  let this := set_elem this (Some p) in
  Ok (ME this, s).

(** ** Dynamic dispatch through the interface [value] *)

Definition value_Type (h : value) (s : state) : result rtype :=
  match h with
  | RV this => reflectValue_Type this
  | ME this => mapEntry_Type this s
  end.

Definition value_Interface (h : value) (s : state) : result eface :=
  match h with
  | RV this => reflectValue_Interface this s
  | ME this => mapEntry_Interface this s
  end.

Definition value_Kind (h : value) (s : state) : result kind :=
  match h with
  | RV this => Ok (reflectValue_Kind this)
  | ME this => mapEntry_Kind this s
  end.

Definition value_Set (h : value) (v : Value) (s : state) : result (value * state) :=
  match h with
  | RV this => reflectValue_Set this v s
  | ME this => mapEntry_Set this v s
  end.

Definition value_IsValid (h : value) (s : state) : result bool :=
  match h with
  | RV this => Ok (reflectValue_IsValid this)
  | ME this => mapEntry_IsValid this s
  end.

Definition value_Len (h : value) (s : state) : result nat :=
  match h with
  | RV this => reflectValue_Len this s
  | ME this => mapEntry_Len this s
  end.

Definition value_IsNil (h : value) (s : state) : result bool :=
  match h with
  | RV this => reflectValue_IsNil this s
  | ME this => mapEntry_IsNil this s
  end.

Definition value_Elem (h : value) (s : state) : result (value * state) :=
  match h with
  | RV this => e ← reflectValue_Elem this s; Ok (e, s)
  | ME this => mapEntry_Elem this s
  end.

Definition value_Value (h : value) (s : state) : result Value :=
  match h with
  | RV this => Ok (reflectValue_Value this)
  | ME this => mapEntry_Value this s
  end.

(** ** Notions used in the statements *)

(** A handle is a [mapEntry] without cached element. *)
Definition uncached (h : value) : bool :=
  match h with
  | RV _ => false
  | ME this => bool_decide (elem this = None)
  end.

(** The kinds of this universe that have a length. *)
Definition has_Len (k : kind) : bool :=
  match k with
  | KString | KMap | KSlice => true
  | _ => false
  end.

(** A store at [b] does not change what the Value [x] holds: [x] is a copy,
    or refers to another place. *)
Definition unaffected (x : Value) (s : state) (b : addr) : Prop :=
  ∀ y s', store s b y = Some s' → contents x s' = contents x s.

(** The kinds of this universe on which [IsNil] is defined, and those on
    which [Elem] is. *)
Definition has_IsNil (k : kind) : bool :=
  match k with
  | KPtr | KMap | KSlice | KInterface => true
  | _ => false
  end.

Definition has_Elem (k : kind) : bool :=
  match k with
  | KPtr | KInterface => true
  | _ => false
  end.

(** [s'] has the memory and the map objects of [s], and its cells. *)
Definition extends (s s' : state) : Prop :=
  mem s' = mem s ∧ maps s' = maps s ∧
  ∀ p e, vals s !! p = Some e → vals s' !! p = Some e.

(** * A running example

    [type Record struct { Name string }], a map [M : map[string]*Record]
    with one map object, the key ["a"], and a [Record] in memory. *)
Module Example.

Definition Record_t : rtype := TStruct "Record" [("Name", TString)].

Definition M : Value := Direct (TMap TString (TPtr Record_t)) (VMap (Some 0)).

Definition K : Value := Direct TString (VString "a").

(** [&Record{Name: "x"}], the record being object 0 of the memory. *)
Definition ptr : Value := Direct (TPtr Record_t) (VPtr (Some (0, []))).

(** The map is empty. *)
Definition s_empty : state := mkState [VStruct [VString "x"]] [[]] [].

(** The map holds [ptr] under ["a"]. *)
Definition s_full : state :=
  mkState [VStruct [VString "x"]] [[(VString "a", VPtr (Some (0, [])))]] [].

(** A handle for [(M, "a")] as the path walker makes it: no cached element. *)
Definition h : mapEntry := mkMapEntry M K None "a".

(** [N : map[string]int] holding [1] under ["a"], and [I : map[string]interface{}]
    holding the int [7] under ["a"]. *)
Definition N : Value := Direct (TMap TString TInt) (VMap (Some 0)).

Definition I : Value := Direct (TMap TString TInterface) (VMap (Some 1)).

Definition s_int : state :=
  mkState [] [[(VString "a", VInt 1)];
              [(VString "a", VIface (Some (TInt, VInt 7)))]] [].

Definition hN : mapEntry := mkMapEntry N K None "a".

Definition hI : mapEntry := mkMapEntry I K None "a".

Definition two : Value := Direct TInt (VInt 2).

(** The handle of the example for ["a"] in [M] after one [Elem()]. *)
Definition h_cached : mapEntry := mkMapEntry M K (Some 0) "a".

Definition s_full_cached : state :=
  mkState (mem s_full) (maps s_full) [ptr].

(** The handle of the example for ["a"] in [N] after one [Elem()]: its cache
    is cell 0, which holds the [1] read from the map. *)
Definition hN_cached : mapEntry := mkMapEntry N K (Some 0) "a".

Definition s_int_cached : state :=
  mkState (mem s_int) (maps s_int) [Direct TInt (VInt 1)].

(** The state after [hN_cached.Set(2)]: the map has [2] under ["a"], and a
    second cell holds the [2]. *)
Definition s_int_set : state :=
  mkState []
    [[(VString "a", VInt 2)]; [(VString "a", VIface (Some (TInt, VInt 7)))]]
    [Direct TInt (VInt 1); Direct TInt (VInt 2)].

(** A nil pointer to int, as [reflect.ValueOf] gives it. *)
Definition nil_ptr : Value := Direct (TPtr TInt) (VPtr None).

(** [R : map[string]Record], records held by value, with
    [Record{Name: "x"}] under ["a"]; a nil [map[string]int]. *)
Definition R : Value := Direct (TMap TString Record_t) (VMap (Some 0)).

Definition s_rec : state :=
  mkState [] [[(VString "a", VStruct [VString "x"])]] [].

Definition hR : mapEntry := mkMapEntry R K None "a".

Definition nil_map : Value := Direct (TMap TString TInt) (VMap None).

(** [type Pair struct { A, B int }] and a [Pair{1, 2}] as object 0. *)
Definition Pair_t : rtype := TStruct "Pair" [("A", TInt); ("B", TInt)].

Definition s_pair : state := mkState [VStruct [VInt 1; VInt 2]] [] [].

Definition pair : Value := Indirect Pair_t (0, []).

Definition Kb : Value := Direct TString (VString "b").

End Example.

Ltac unbind := unfold mbind, result_bind, mret, result_ret in *.

(** Case analysis on the first computation of a sequence that returned. *)
Ltac bind_inv H :=
  unbind;
  match type of H with
  | match ?m with Ok _ => _ | Panic _ => _ end = Ok _ =>
      let E := fresh "E" in destruct m eqn:E; [|discriminate H]
  end.

(** * Properties of the runtime model *)

Section memory.
Implicit Types (s : state) (a : addr) (x y : gval) (p : list nat).

Lemma sub_upd p : ∀ x y x', upd x p y = Some x' → sub x' p = Some y.
Proof.
  induction p as [|i p IH]; intros x y x' H; simpl in *.
  - congruence.
  - destruct x; try discriminate;
      destruct (_ !! i) as [z|] eqn:Hi; simpl in H; try discriminate;
      destruct (upd z p y) as [z'|] eqn:Hz; simpl in H; try discriminate;
      injection H as <-; simpl;
      rewrite list_lookup_insert_eq by (by eapply lookup_lt_Some);
      simpl; eauto.
Qed.

Lemma upd_is_Some p : ∀ x y, is_Some (sub x p) → is_Some (upd x p y).
Proof.
  induction p as [|i p IH]; intros x y [old H]; simpl in *.
  - eauto.
  - destruct x; try discriminate;
      destruct (_ !! i) as [z|] eqn:Hi; simpl in *; try discriminate;
      destruct (IH z y) as [z' ->]; eauto.
Qed.

Lemma load_store s a y s' : store s a y = Some s' → load s' a = Some y.
Proof.
  unfold store, load. intros H.
  destruct (mem s !! a.1) as [x|] eqn:Hx; simpl in H; [|discriminate].
  destruct (upd x a.2 y) as [x'|] eqn:Hu; simpl in H; [|discriminate].
  injection H as <-. simpl.
  rewrite list_lookup_insert_eq by (by eapply lookup_lt_Some).
  simpl. by eapply sub_upd.
Qed.

Lemma store_is_Some s a y : is_Some (load s a) → is_Some (store s a y).
Proof.
  unfold store, load. intros [old H].
  destruct (mem s !! a.1) as [x|] eqn:Hx; simpl in *; [|discriminate].
  destruct (upd_is_Some a.2 x y) as [x' ->]; eauto.
Qed.

Lemma store_frame s a y s' :
  store s a y = Some s' → maps s' = maps s ∧ vals s' = vals s.
Proof.
  unfold store. intros H.
  destruct (mem s !! a.1) as [x|]; simpl in H; [|discriminate].
  destruct (upd x a.2 y) as [x'|]; simpl in H; [|discriminate].
  by injection H as <-.
Qed.

(** A store depends on the memory only. *)
Lemma store_mem s1 s2 a y s1' :
  mem s1 = mem s2 → store s1 a y = Some s1' →
  store s2 a y = Some (mkState (mem s1') (maps s2) (vals s2)).
Proof.
  unfold store. intros <- H.
  destruct (mem s1 !! a.1) as [x|]; simpl in *; [|discriminate].
  destruct (upd x a.2 y) as [x'|]; simpl in *; [|discriminate].
  by injection H as <-.
Qed.
End memory.

Section mapobjects.
Implicit Types (k e : gval) (g : gomap).

Lemma mapaccess_mapassign k e g : mapaccess k (mapassign k e g) = Some e.
Proof.
  induction g as [|[k' e'] g IH]; simpl.
  - by rewrite decide_True.
  - destruct (decide (k = k')) as [->|Hne]; simpl.
    + by rewrite decide_True.
    + by rewrite decide_False.
Qed.

Lemma mapaccess_mapassign_ne k k' e g :
  k ≠ k' → mapaccess k' (mapassign k e g) = mapaccess k' g.
Proof.
  intros Hne. induction g as [|[k0 e0] g IH]; simpl.
  - by rewrite decide_False.
  - destruct (decide (k = k0)) as [->|]; simpl.
    + by rewrite !decide_False.
    + by rewrite IH.
Qed.
End mapobjects.

Section cells.
Implicit Types (s : state) (v : Value) (p : nat).

Lemma alloc_deref v s : deref (alloc v s).1 (alloc v s).2 = Ok v.
Proof.
  unfold deref, alloc; simpl.
  rewrite lookup_app_r by lia. by rewrite Nat.sub_diag.
Qed.

Lemma alloc_old v s p e : deref p s = Ok e → deref p (alloc v s).2 = Ok e.
Proof.
  unfold deref, alloc, expect; simpl.
  destruct (vals s !! p) as [e'|] eqn:H; [|discriminate].
  intros [= <-]. by rewrite lookup_app_l_Some with (x := e').
Qed.

Lemma alloc_fresh v s p e : deref p s = Ok e → p ≠ (alloc v s).1.
Proof.
  unfold deref, alloc, expect; simpl.
  destruct (vals s !! p) as [e'|] eqn:H; [|discriminate].
  intros _. apply lookup_lt_Some in H. lia.
Qed.
End cells.


(** * Properties of the reflect methods *)

Section reflect_facts.
Implicit Types (s : state) (v : Value) (t : rtype) (x y : gval) (i : eface).

(** Reading a Value needs the memory only. *)
Lemma contents_mem v s s' : mem s = mem s' → contents v s = contents v s'.
Proof. intros H. destruct v; simpl; auto. unfold load. by rewrite H. Qed.

Lemma assignTo_contents v t s s' :
  contents v s = contents v s' → assignTo v t s = assignTo v t s'.
Proof. intros H. destruct v; simpl in *; auto; by rewrite H. Qed.

Lemma Value_Interface_contents v s s' :
  contents v s = contents v s' → Value_Interface v s = Value_Interface v s'.
Proof. intros H. destruct v; simpl in *; auto; by rewrite H. Qed.

Lemma Value_Elem_contents v s s' :
  contents v s = contents v s' → Value_Elem v s = Value_Elem v s'.
Proof.
  intros H. destruct v as [|t x|t a]; simpl in *; auto.
  destruct t; auto; by rewrite H.
Qed.

(** A valid Value reads as the copy of what it holds. *)
Lemma Value_Interface_Direct v t x s s' :
  Value_Type v = Ok t → contents v s = Ok x →
  Value_Interface v s = Value_Interface (Direct t x) s'.
Proof.
  destruct v as [|t' x'|t' a]; simpl; intros [= <-] H; try discriminate.
  - by injection H as <-.
  - by rewrite H.
Qed.

(** What assignment stores reads back as the interface value of the source. *)
Lemma assignTo_Interface v dst s y i s' :
  Value_Interface v s = Ok i → assignTo v dst s = Ok y →
  Value_Interface (Direct dst y) s' = Ok i.
Proof.
  destruct v as [|t x|t a]; simpl; try discriminate.
  - destruct (decide (dst = t)) as [->|Hne].
    + intros Hi [= <-]. exact Hi.
    + destruct (decide (dst = TInterface)) as [->|]; [|discriminate].
      unbind. intros Hi [= <-]. simpl. destruct t; congruence.
  - destruct (decide (dst = t)) as [->|Hne].
    + intros Hi Hy. rewrite Hy in Hi. exact Hi.
    + destruct (decide (dst = TInterface)) as [->|]; [|discriminate].
      unbind. destruct (expect (load s a)) as [x|]; [|discriminate].
      intros Hi [= <-]. simpl. destruct t; congruence.
Qed.

(** A valid Value of an assignable type can be assigned when it can be read. *)
Lemma assignTo_ok v dst tv s i :
  Value_Type v = Ok tv → assignable dst tv = true →
  Value_Interface v s = Ok i → ∃ y, assignTo v dst s = Ok y.
Proof.
  unfold assignable. intros Ht Ha Hi.
  destruct v as [|t x|t a]; simpl in *; try discriminate;
    injection Ht as ->; unbind.
  - destruct (decide (dst = tv)); [eauto|].
    destruct (decide (dst = TInterface)); [eauto|].
    rewrite !bool_decide_eq_false_2 in Ha by done. discriminate.
  - destruct (expect (load s a)) as [x|]; [|discriminate].
    destruct (decide (dst = tv)); [eauto|].
    destruct (decide (dst = TInterface)); [eauto|].
    rewrite !bool_decide_eq_false_2 in Ha by done. discriminate.
Qed.

(** The interface value of a present zero value. *)
Lemma Value_Interface_zero t s :
  Value_Interface (Direct t (zero_val t)) s
  = Ok (if decide (t = TInterface) then None else Some (t, zero_val t)).
Proof. destruct t; reflexivity. Qed.

(** [SetMapIndex] with a valid element on a map object: the entry under the
    key is replaced, nothing else of the state changes, and [MapIndex] finds
    the element. *)
Lemma SetMapIndex_MapIndex (M K v : Value) s kt et m g k y :
  Value_Type M = Ok (TMap kt et) →
  contents M s = Ok (VMap (Some m)) →
  maps s !! m = Some g →
  assignTo K kt s = Ok k →
  hashable k = true →
  Value_IsValid v = true →
  assignTo v et s = Ok y →
  let s' := set_maps s m (mapassign k y g) in
  Value_SetMapIndex M K v s = Ok s' ∧
  Value_MapIndex M K s' = Ok (Direct et y).
Proof.
  intros HM Hc Hg HK Hh Hv Hy s'.
  assert (Hmem : mem s = mem s') by reflexivity.
  assert (HK0 : K ≠ Zero) by (intros ->; discriminate).
  split.
  - destruct M as [|tM xM|tM aM]; simpl in HM; try discriminate;
      injection HM as ->; destruct K as [|tK xK|tK aK]; try done;
      unfold Value_SetMapIndex; cbv beta iota;
      rewrite HK; unbind; rewrite Hc; destruct v; try discriminate;
      rewrite Hy, Hh, Hg; reflexivity.
  - assert (Hc' : contents M s' = Ok (VMap (Some m)))
      by (by rewrite <- (contents_mem M s s')).
    assert (HK' : assignTo K kt s' = Ok k)
      by (rewrite <- (assignTo_contents K kt s s'); [done|by apply contents_mem]).
    assert (Hg' : maps s' !! m = Some (mapassign k y g)).
    { simpl. apply list_lookup_insert_eq. by eapply lookup_lt_Some. }
    destruct M as [|tM xM|tM aM]; simpl in HM; try discriminate;
      injection HM as ->; unfold Value_MapIndex; cbv beta iota;
      rewrite HK'; unbind; rewrite Hc', Hh, Hg'; simpl;
      by rewrite mapaccess_mapassign.
Qed.

(** The zero Value panics in every reading method but [IsValid] and [Kind]. *)
Lemma Zero_panics s :
  Value_Type Zero = Panic (ValueError "Type" KInvalid) ∧
  Value_Interface Zero s = Panic (ValueError "Interface" KInvalid) ∧
  Value_Len Zero s = Panic (ValueError "Len" KInvalid) ∧
  Value_IsNil Zero s = Panic (ValueError "IsNil" KInvalid).
Proof. done. Qed.
End reflect_facts.


(** * The scenario of the specification

    [M : map[string]*Record], empty.  (a) The handle for ["a"] is not valid.
    (b) After [Set(&Record{Name: "x"})] the map has a record named ["x"]
    under ["a"].  (c) After [Elem()] on the handle [Set] returned, and the
    field [Name] of its value set to ["y"], the map has a record named ["y"]
    under ["a"]. *)
Example scenario :
  let read_Name s :=
    p ← Value_MapIndex Example.M Example.K s;
    r ← Value_Elem p s;
    f ← Value_Field r 0;
    Value_Interface f s in
  mapEntry_IsValid Example.h Example.s_empty = Ok false ∧
  ('(h1, s1) ← mapEntry_Set Example.h Example.ptr Example.s_empty;
   read_Name s1) = Ok (Some (TString, VString "x")) ∧
  ('(h1, s1) ← mapEntry_Set Example.h Example.ptr Example.s_empty;
   '(h2, s2) ← value_Elem h1 s1;
   r ← value_Value h2 s2;
   f ← Value_Field r 0;
   '(_, s3) ← reflectValue_Set f (Direct TString (VString "y")) s2;
   read_Name s3) = Ok (Some (TString, VString "y")).
Proof. repeat split. Qed.

(** [Set] on a handle whose host is a nil map panics, as an assignment to an
    entry of a nil map does. *)
Example Set_on_nil_map :
  mapEntry_Set
    (mkMapEntry (Direct (TMap TString TInt) (VMap None)) Example.K None "a")
    Example.two Example.s_empty
  = Panic NilMapAssignment.
Proof. reflexivity. Qed.

(** * Properties of value.go *)

Section mapEntry_Set.
Variables (this : mapEntry) (v : Value) (s : state).
Variables (kt et tv : rtype) (m : nat) (g : gomap) (k : gval) (i : eface).

(** The host is a map value [map[kt]et] that refers to the map object [m],
    the key can be used in it, and [v] is a valid Value of a type assignable
    to [et]. *)
Hypothesis Hhost : Value_Type (host this) = Ok (TMap kt et).
Hypothesis Hobj : contents (host this) s = Ok (VMap (Some m)).
Hypothesis Hmap : maps s !! m = Some g.
Hypothesis Hkey : assignTo (key this) kt s = Ok k.
Hypothesis Hhash : hashable k = true.
Hypothesis Hv : Value_Type v = Ok tv.
Hypothesis Hassignable : assignable et tv = true.
Hypothesis Hread : Value_Interface v s = Ok i.

(** What [Set] does, step by step: it returns the receiver's copy with
    [elem] pointing to a new cell that holds [v], and the state in which the
    map object has [v] (as assigned to the element type) under the key. *)
Lemma mapEntry_Set_steps :
  ∃ y, assignTo v et s = Ok y ∧
    let p := length (vals s) in
    let s' := mkState (mem s) (<[m:=mapassign k y g]> (maps s)) (vals s ++ [v]) in
    mapEntry_Set this v s = Ok (ME (set_elem this (Some p)), s') ∧
    Value_MapIndex (host this) (key this) s' = Ok (Direct et y) ∧
    Value_Interface (Direct et y) s' = Ok i.
Proof using All.
  destruct (assignTo_ok v et tv s i Hv Hassignable Hread) as [y Hy].
  exists y. split; [done|]. intros p s'.
  pose (s1 := (alloc v s).2).
  assert (Hmem : mem s = mem s1) by reflexivity.
  assert (Hvalid : Value_IsValid v = true) by (by destruct v).
  assert (Hobj1 : contents (host this) s1 = Ok (VMap (Some m)))
    by (by rewrite <- (contents_mem _ s s1)).
  assert (Hkey1 : assignTo (key this) kt s1 = Ok k)
    by (by rewrite <- (assignTo_contents _ kt s s1) by (by apply contents_mem)).
  assert (Hy1 : assignTo v et s1 = Ok y)
    by (by rewrite <- (assignTo_contents _ et s s1) by (by apply contents_mem)).
  destruct (SetMapIndex_MapIndex (host this) (key this) v s1 kt et m g k y
              Hhost Hobj1 Hmap Hkey1 Hhash Hvalid Hy1) as [Hset Hget].
  split; [|split].
  - unfold mapEntry_Set. change (alloc v s) with (p, s1).
    cbv beta iota. change (host (set_elem this (Some p))) with (host this).
    change (key (set_elem this (Some p))) with (key this).
    by rewrite Hset.
  - exact Hget.
  - by eapply assignTo_Interface.
Qed.
End mapEntry_Set.

(** C4 (P2, read-after-write through the owning container).  For a handle
    for [(M, K)], with or without a cached element, whose host refers to a
    map object, whatever the map holds, and for a valid [v] of a type
    assignable to the element type: [Set(v)] returns, and afterwards
    [M.MapIndex(K)], read from the map itself and not through the handle, is a
    valid Value of the element type whose interface value is that of [v]. *)
Theorem mapEntry_Set_read_through_mapping
  (M K v : Value) (cache : option nat) (nm : string) (s : state)
  (kt et tv : rtype) (m : nat) (g : gomap) (k : gval) (i : eface) :
  Value_Type M = Ok (TMap kt et) →
  contents M s = Ok (VMap (Some m)) →
  maps s !! m = Some g →
  assignTo K kt s = Ok k →
  hashable k = true →
  Value_Type v = Ok tv →
  assignable et tv = true →
  Value_Interface v s = Ok i →
  ∃ h' s', mapEntry_Set (mkMapEntry M K cache nm) v s = Ok (h', s') ∧
    ∃ e, Value_MapIndex M K s' = Ok e ∧
         Value_IsValid e = true ∧
         Value_Type e = Ok et ∧
         Value_Interface e s' = Ok i.
Proof.
  intros HM Hc Hg HK Hh Hv Ha Hi.
  destruct (mapEntry_Set_steps (mkMapEntry M K cache nm) v s kt et tv m g k i)
    as (y & Hy & Hset & Hget & Hint); try done.
  eexists _, _. split; [exact Hset|].
  exists (Direct et y). auto.
Qed.

(** The key ["a"] is not in the empty map of the example; after
    [Set(&Record{Name: "x"})] the map has the pointer under it. *)
Lemma mapEntry_Set_read_through_mapping_witness :
  ∃ h' s', mapEntry_Set (mkMapEntry Example.M Example.K None "a")
             Example.ptr Example.s_empty = Ok (h', s') ∧
    ∃ e, Value_MapIndex Example.M Example.K s' = Ok e ∧
         Value_IsValid e = true ∧
         Value_Type e = Ok (TPtr Example.Record_t) ∧
         Value_Interface e s'
         = Ok (Some (TPtr Example.Record_t, VPtr (Some (0, [])))).
Proof.
  apply (mapEntry_Set_read_through_mapping Example.M Example.K Example.ptr
           None "a" Example.s_empty TString (TPtr Example.Record_t)
           (TPtr Example.Record_t) 0 [] (VString "a"));
    reflexivity.
Defined.

(** ** The cache after [Set] *)

(** C3, as stated, fails on the handle [Set] is called on.  The receiver is
    held by value: [hN_cached] is the handle that [Elem()] returned, with the
    [1] of the map as cached element; [hN_cached.Set(2)] puts [2] into the
    map and returns a handle whose cache is the [2], but [hN_cached] itself
    still points to the cell with the [1], and its [Interface()] and
    [Value()] return the [1]. *)
Lemma mapEntry_Set_receiver_reads_old_cache :
  let h1 := Example.hN_cached in
  let s1 := Example.s_int_cached in
  let s2 := Example.s_int_set in
  mapEntry_Elem Example.hN Example.s_int = Ok (ME h1, s1) ∧
  mapEntry_Set h1 Example.two s1 = Ok (ME (set_elem h1 (Some 1)), s2) ∧
  Value_Interface Example.two s2 = Ok (Some (TInt, VInt 2)) ∧
  mapEntry_Interface h1 s2 = Ok (Some (TInt, VInt 1)) ∧
  mapEntry_Value h1 s2 = Ok (Direct TInt (VInt 1)) ∧
  mapEntry_Interface h1 s2 ≠ Value_Interface Example.two s2 ∧
  mapEntry_Value h1 s2 ≠ Ok Example.two.
Proof. repeat split; try reflexivity; discriminate. Qed.

(** C3, amended: the cache of the handle that [Set] returns.  [Set(v)] puts
    [v] into the map under the key of the handle and returns a handle with
    the receiver's host, key and name whose [elem] points to a cell holding
    [v]; on the returned handle [Interface()] is the interface value of [v],
    and in every later state that still has the cell, whatever its map
    objects hold, [Value()] is [v], [Type()] the type of [v] and
    [Interface()] what [v.Interface()] is there. *)
Theorem mapEntry_Set_returned_handle_reads_cache
  (this : mapEntry) (v : Value) (s : state)
  (kt et tv : rtype) (m : nat) (g : gomap) (k : gval) (i : eface) :
  Value_Type (host this) = Ok (TMap kt et) →
  contents (host this) s = Ok (VMap (Some m)) →
  maps s !! m = Some g →
  assignTo (key this) kt s = Ok k →
  hashable k = true →
  Value_Type v = Ok tv →
  assignable et tv = true →
  Value_Interface v s = Ok i →
  ∃ this' p s',
    mapEntry_Set this v s = Ok (ME this', s') ∧
    host this' = host this ∧ key this' = key this ∧ name this' = name this ∧
    elem this' = Some p ∧
    deref p s' = Ok v ∧
    (∃ e, Value_MapIndex (host this) (key this) s' = Ok e ∧
          Value_Interface e s' = Ok i) ∧
    mapEntry_Interface this' s' = Ok i ∧
    ∀ s'', deref p s'' = Ok v →
      mapEntry_Value this' s'' = Ok v ∧
      mapEntry_Type this' s'' = Ok tv ∧
      mapEntry_Interface this' s'' = Value_Interface v s''.
Proof.
  intros HM Hc Hg HK Hh Hv Ha Hi.
  destruct (mapEntry_Set_steps this v s kt et tv m g k i)
    as (y & Hy & Hset & Hget & Hint); try done.
  eexists _, _, _. split; [exact Hset|].
  assert (Hcell : deref (length (vals s))
            (mkState (mem s) (<[m:=mapassign k y g]> (maps s)) (vals s ++ [v]))
          = Ok v) by apply (alloc_deref v s).
  do 4 (split; [done|]). split; [exact Hcell|].
  split; [eauto|]. split.
  - unfold mapEntry_Interface, set_elem; cbn [elem]. unbind. rewrite Hcell.
    rewrite <- Hi. by apply Value_Interface_contents, contents_mem.
  - intros s'' Hcell''.
    unfold mapEntry_Value, mapEntry_Type, mapEntry_Interface, set_elem;
      cbn [elem]. unbind. by rewrite Hcell''.
Qed.

Lemma mapEntry_Set_returned_handle_reads_cache_witness :
  ∃ this' p s',
    mapEntry_Set Example.hN_cached Example.two Example.s_int_cached
    = Ok (ME this', s') ∧
    host this' = Example.N ∧ key this' = Example.K ∧ name this' = "a" ∧
    elem this' = Some p ∧
    deref p s' = Ok Example.two ∧
    (∃ e, Value_MapIndex Example.N Example.K s' = Ok e ∧
          Value_Interface e s' = Ok (Some (TInt, VInt 2))) ∧
    mapEntry_Interface this' s' = Ok (Some (TInt, VInt 2)) ∧
    ∀ s'', deref p s'' = Ok Example.two →
      mapEntry_Value this' s'' = Ok Example.two ∧
      mapEntry_Type this' s'' = Ok TInt ∧
      mapEntry_Interface this' s'' = Value_Interface Example.two s''.
Proof.
  apply (mapEntry_Set_returned_handle_reads_cache Example.hN_cached Example.two
           Example.s_int_cached TString TInt TInt 0 [(VString "a", VInt 1)]
           (VString "a"));
    reflexivity.
Defined.

(** ** The receiver is held by value *)

(** C10.  [Set] and [Elem] have the receiver [mapEntry] by value (in the
    embedding: as an argument), and assign only to the field [elem] of that
    copy, which they return.  The returned handle has the host, key and name
    of the receiver and points to a cell that did not exist before; the cells
    that existed are unchanged, so the cell the receiver's own [elem] points
    to holds what it held, the receiver's [elem] is not the new cell, and the
    receiver's [Value()] through its cache is what it was. *)
Theorem mapEntry_Set_Elem_leave_receiver
  (this : mapEntry) (v : Value) (s : state) (h' : value) (s' : state) :
  mapEntry_Set this v s = Ok (h', s') ∨ mapEntry_Elem this s = Ok (h', s') →
  ∃ q, h' = ME (mkMapEntry (host this) (key this) (Some q) (name this)) ∧
    vals s !! q = None ∧
    is_Some (vals s' !! q) ∧
    (∀ p e, vals s !! p = Some e → vals s' !! p = Some e) ∧
    (∀ p e, elem this = Some p → deref p s = Ok e →
       q ≠ p ∧ deref p s' = Ok e ∧ mapEntry_Value this s' = Ok e).
Proof.
  intros H.
  assert (∃ e, h' = ME (set_elem this (Some (alloc e s).1)) ∧
               vals s' = vals (alloc e s).2) as (e0 & -> & Hvals).
  { destruct H as [H|H].
    - unfold mapEntry_Set in H.
      change (alloc v s) with (length (vals s), (alloc v s).2) in H.
      cbv beta iota in H. bind_inv H. injection H as <- <-.
      exists v. split; [done|].
      revert E. simpl. unfold Value_SetMapIndex, set_maps.
      intros E. repeat case_match; unbind; repeat case_match;
        simplify_eq; done.
    - unfold mapEntry_Elem in H. bind_inv H.
      change (alloc a s) with (length (vals s), (alloc a s).2) in H.
      cbv beta iota in H. injection H as <- <-. by exists a. }
  exists (length (vals s)). rewrite Hvals. simpl.
  split; [done|]. split; [by apply lookup_ge_None_2|].
  split; [rewrite lookup_app_r by lia; rewrite Nat.sub_diag; eauto|].
  split.
  - intros p e Hp. by apply lookup_app_l_Some.
  - intros p e Hthis Hp.
    assert (Hlook : vals s !! p = Some e).
    { unfold deref, expect in Hp. by destruct (vals s !! p); simplify_eq. }
    split; [apply lookup_lt_Some in Hlook; lia|].
    assert (deref p s' = Ok e) as Hp'.
    { unfold deref. rewrite Hvals. simpl.
      by rewrite (lookup_app_l_Some _ _ _ _ Hlook). }
    split; [done|]. unfold mapEntry_Value. by rewrite Hthis.
Qed.

Lemma mapEntry_Set_Elem_leave_receiver_witness :
  let this := Example.hN_cached in
  let s := Example.s_int_cached in
  let s' := Example.s_int_set in
  ∃ q, ME (set_elem this (Some 1))
       = ME (mkMapEntry (host this) (key this) (Some q) (name this)) ∧
    vals s !! q = None ∧
    is_Some (vals s' !! q) ∧
    (∀ p e, vals s !! p = Some e → vals s' !! p = Some e) ∧
    (∀ p e, elem this = Some p → deref p s = Ok e →
       q ≠ p ∧ deref p s' = Ok e ∧ mapEntry_Value this s' = Ok e).
Proof.
  apply (mapEntry_Set_Elem_leave_receiver Example.hN_cached Example.two
           Example.s_int_cached).
  left. reflexivity.
Defined.

(** ** [Elem] on a handle without cached element *)

(** C2, as stated, fails.  With [M["a"]] a pointer to a [Record], one
    [Elem()] on the handle without cache returns a handle whose value is
    that pointer, of kind [Ptr], as the first handle's was: not the [Record]
    the pointer points to, which is what [Elem] of the pointer gives. *)
Lemma mapEntry_Elem_uncached_does_not_dereference :
  let h1 := Example.h_cached in
  let s1 := Example.s_full_cached in
  mapEntry_Value Example.h Example.s_full = Ok Example.ptr ∧
  mapEntry_Elem Example.h Example.s_full = Ok (ME h1, s1) ∧
  mapEntry_Value h1 s1 = Ok Example.ptr ∧
  mapEntry_Kind h1 s1 = Ok KPtr ∧
  Value_Elem Example.ptr s1 = Ok (Indirect Example.Record_t (0, [])) ∧
  mapEntry_Value h1 s1 ≠ Value_Elem Example.ptr s1.
Proof. repeat split; try reflexivity; discriminate. Qed.

(** C2, amended.  On a handle without cached element for which reading the
    map at the key returns [e] (the zero Value when the key is absent),
    [Elem()] returns the handle with the same host, key and name and with
    [elem] pointing to a new cell that holds [e], not dereferenced: its
    [Value()] is [e], as the first handle's.  Memory and map objects are
    untouched.  It is the next [Elem()], on the returned handle, that
    dereferences the cached copy. *)
Theorem mapEntry_Elem_uncached_materializes
  (this : mapEntry) (s : state) (e : Value) :
  elem this = None →
  Value_MapIndex (host this) (key this) s = Ok e →
  ∃ this' p s',
    mapEntry_Elem this s = Ok (ME this', s') ∧
    host this' = host this ∧ key this' = key this ∧ name this' = name this ∧
    elem this' = Some p ∧
    deref p s' = Ok e ∧
    mem s' = mem s ∧ maps s' = maps s ∧
    mapEntry_Value this s = Ok e ∧
    mapEntry_Value this' s' = Ok e ∧
    ∀ d, Value_Elem e s' = Ok d →
      ∃ this'' s'', mapEntry_Elem this' s' = Ok (ME this'', s'') ∧
                    host this'' = host this ∧ key this'' = key this ∧
                    mapEntry_Value this'' s'' = Ok d.
Proof.
  intros Hnil Hidx.
  exists (set_elem this (Some (length (vals s)))), (length (vals s)),
    (alloc e s).2.
  assert (Hcell : deref (length (vals s)) (alloc e s).2 = Ok e)
    by apply (alloc_deref e s).
  split; [unfold mapEntry_Elem; by rewrite Hnil, Hidx|].
  repeat split; try done.
  - unfold mapEntry_Value. by rewrite Hnil.
  - intros d Hd.
    exists (set_elem this (Some (length (vals (alloc e s).2)))),
      (alloc d (alloc e s).2).2.
    split; [|repeat split].
    + unfold mapEntry_Elem. simpl elem. unbind. by rewrite Hcell, Hd.
    + apply (alloc_deref d (alloc e s).2).
Qed.

Lemma mapEntry_Elem_uncached_materializes_witness :
  ∃ this' p s',
    mapEntry_Elem Example.h Example.s_full = Ok (ME this', s') ∧
    host this' = Example.M ∧ key this' = Example.K ∧ name this' = "a" ∧
    elem this' = Some p ∧
    deref p s' = Ok Example.ptr ∧
    mem s' = mem Example.s_full ∧ maps s' = maps Example.s_full ∧
    mapEntry_Value Example.h Example.s_full = Ok Example.ptr ∧
    mapEntry_Value this' s' = Ok Example.ptr ∧
    ∀ d, Value_Elem Example.ptr s' = Ok d →
      ∃ this'' s'', mapEntry_Elem this' s' = Ok (ME this'', s'') ∧
                    host this'' = Example.M ∧ key this'' = Example.K ∧
                    mapEntry_Value this'' s'' = Ok d.
Proof.
  apply (mapEntry_Elem_uncached_materializes Example.h Example.s_full
           Example.ptr); reflexivity.
Defined.

(** ** [Type] *)

(** C7.  Without cached element [Type()] is the element type of the host's
    type, in every state: what the map holds under the key, if anything, does
    not enter.  With a cached element it is the type of the cached Value. *)
Theorem mapEntry_Type_static_or_cached
  (this : mapEntry) (s : state) (th et : rtype) :
  Value_Type (host this) = Ok th →
  Type_Elem th = Ok et →
  match elem this with
  | None => mapEntry_Type this s = Ok et
  | Some p => ∀ e, deref p s = Ok e → mapEntry_Type this s = Value_Type e
  end.
Proof.
  intros Hth Het. unfold mapEntry_Type.
  destruct (elem this) as [p|].
  - intros e He. unbind. by rewrite He.
  - unbind. by rewrite Hth.
Qed.

(** In the example [I : map[string]interface{}] holds an int under ["a"]:
    the handle without cache has type [interface{}], the Value it reads
    contains an int. *)
Lemma mapEntry_Type_static_or_cached_witness :
  mapEntry_Type Example.hI Example.s_int = Ok TInterface ∧
  (v ← mapEntry_Value Example.hI Example.s_int;
   d ← Value_Elem v Example.s_int;
   Value_Type d) = Ok TInt.
Proof.
  split; [|reflexivity].
  apply (mapEntry_Type_static_or_cached Example.hI Example.s_int
           (TMap TString TInterface) TInterface); reflexivity.
Defined.

(** With a cache: after [Set(2)] on that handle the returned handle has type
    [int], the type of the cached Value. *)
Example mapEntry_Type_after_Set :
  ('(h', s') ← mapEntry_Set Example.hI Example.two Example.s_int;
   value_Type h' s') = Ok TInt.
Proof. reflexivity. Qed.

(** ** Absent keys *)

(** C6.  A handle without cached element whose key is not in the map (the
    map may be nil): [IsValid()] returns false, without a panic, and
    [Value()] is the zero Value; [Interface()] panics, as [Interface] on the
    zero Value does.  That tells absence from a present zero value: where the
    map has the zero value of its element type under the key, [IsValid()] is
    true and [Interface()] returns that zero value. *)
Theorem mapEntry_absent_key
  (this : mapEntry) (s : state) (kt et : rtype) (k : gval) :
  elem this = None →
  Value_Type (host this) = Ok (TMap kt et) →
  assignTo (key this) kt s = Ok k →
  hashable k = true →
  (contents (host this) s = Ok (VMap None) ∨
   ∃ m g, contents (host this) s = Ok (VMap (Some m)) ∧
          maps s !! m = Some g ∧ mapaccess k g = None) →
  mapEntry_IsValid this s = Ok false ∧
  mapEntry_Value this s = Ok Zero ∧
  mapEntry_Interface this s = Panic (ValueError "Interface" KInvalid) ∧
  ∀ s2 m2 g2,
    contents (host this) s2 = Ok (VMap (Some m2)) →
    maps s2 !! m2 = Some g2 →
    assignTo (key this) kt s2 = Ok k →
    mapaccess k g2 = Some (zero_val et) →
    mapEntry_IsValid this s2 = Ok true ∧
    mapEntry_Interface this s2
    = Ok (if decide (et = TInterface) then None else Some (et, zero_val et)).
Proof.
  destruct this as [M K c nm]; simpl. intros -> HM HK Hh Habsent.
  unfold mapEntry_IsValid, mapEntry_Interface, mapEntry_Value; simpl.
  destruct M as [|tM xM|tM aM]; simpl in HM; try discriminate;
    injection HM as ->; unfold Value_MapIndex; cbv beta iota;
    rewrite HK; unbind.
  - split; [|split; [|split]].
    1-3: destruct Habsent as [Hc|(m & g & Hc & Hg & Hk)]; rewrite Hc, Hh;
      try done; rewrite Hg; simpl; by rewrite Hk.
    intros s2 m2 g2 Hc2 Hg2 HK2 Hk2.
    rewrite HK2, Hc2, Hh, Hg2; simpl; rewrite Hk2.
    split; [done|apply Value_Interface_zero].
  - split; [|split; [|split]].
    1-3: destruct Habsent as [Hc|(m & g & Hc & Hg & Hk)]; rewrite Hc, Hh;
      try done; rewrite Hg; simpl; by rewrite Hk.
    intros s2 m2 g2 Hc2 Hg2 HK2 Hk2.
    rewrite HK2, Hc2, Hh, Hg2; simpl; rewrite Hk2.
    split; [done|apply Value_Interface_zero].
Qed.

Lemma mapEntry_absent_key_witness :
  mapEntry_IsValid Example.h Example.s_empty = Ok false ∧
  mapEntry_Value Example.h Example.s_empty = Ok Zero ∧
  mapEntry_Interface Example.h Example.s_empty
  = Panic (ValueError "Interface" KInvalid) ∧
  ∀ s2 m2 g2,
    contents Example.M s2 = Ok (VMap (Some m2)) →
    maps s2 !! m2 = Some g2 →
    assignTo Example.K TString s2 = Ok (VString "a") →
    mapaccess (VString "a") g2 = Some (VPtr None) →
    mapEntry_IsValid Example.h s2 = Ok true ∧
    mapEntry_Interface Example.h s2
    = Ok (Some (TPtr Example.Record_t, VPtr None)).
Proof.
  apply (mapEntry_absent_key Example.h Example.s_empty TString
           (TPtr Example.Record_t) (VString "a")); try reflexivity.
  right. exists 0, []. repeat split.
Defined.

(** ** Nil pointers *)

Lemma nil_pointer_IsNil_Elem (v : Value) (s : state) :
  Value_Kind v = KPtr → contents v s = Ok (VPtr None) →
  Value_IsNil v s = Ok true ∧ Value_Elem v s = Ok Zero.
Proof.
  intros Hk Hc. unfold Value_IsNil. rewrite Hk. unbind. rewrite Hc.
  split; [done|].
  destruct v as [|t x|t a]; try discriminate;
    destruct t; try discriminate; unfold Value_Elem; unbind; by rewrite Hc.
Qed.

(** C5, as stated, fails: [Elem()] on a handle for a nil pointer does not
    panic.  It returns a handle for the zero Value. *)
Lemma Elem_of_nil_pointer_returns :
  value_IsNil (RV Example.nil_ptr) Example.s_empty = Ok true ∧
  reflectValue_Elem Example.nil_ptr Example.s_empty = Ok (RV Zero) ∧
  value_Elem (RV Example.nil_ptr) Example.s_empty = Ok (RV Zero, Example.s_empty) ∧
  value_IsValid (RV Zero) Example.s_empty = Ok false ∧
  ¬ ∃ e, value_Elem (RV Example.nil_ptr) Example.s_empty = Panic e.
Proof. repeat split; try reflexivity. intros [e H]. discriminate. Qed.

(** C5, amended.  For a handle whose value is a nil pointer, [IsNil()] is
    true and [Elem()] returns: a handle whose value is the zero Value, so
    that its [IsValid()] is false, or, from a [mapEntry] without cached
    element, a handle with the nil pointer as cached element. *)
Theorem IsNil_and_Elem_of_nil_pointer (h : value) (s : state) (v : Value) :
  value_Value h s = Ok v →
  Value_Kind v = KPtr →
  contents v s = Ok (VPtr None) →
  value_IsNil h s = Ok true ∧
  ∃ h' s', value_Elem h s = Ok (h', s') ∧
    value_Value h' s' = Ok (if uncached h then v else Zero) ∧
    value_IsValid h' s' = Ok (uncached h).
Proof.
  intros Hval Hk Hc.
  destruct (nil_pointer_IsNil_Elem v s Hk Hc) as [Hnil Helem].
  assert (Hvalid : Value_IsValid v = true) by (by destruct v).
  destruct h as [this|[M K [p|] nm]]; simpl in *.
  - unfold reflectValue_Value in Hval. injection Hval as ->. split; [done|].
    unfold reflectValue_Elem. unbind. rewrite Helem. eauto.
  - unfold mapEntry_IsNil, mapEntry_Value, mapEntry_Elem in *; simpl in *.
    unbind. rewrite Hval, Helem. split; [done|].
    eexists _, _. split; [reflexivity|].
    pose proof (alloc_deref Zero s) as Hcell. simpl in Hcell.
    unfold value_Value, value_IsValid, mapEntry_IsValid, mapEntry_Value,
      set_elem; cbn [elem]. unbind.
    by rewrite Hcell.
  - unfold mapEntry_IsNil, mapEntry_Value, mapEntry_Elem in *; simpl in *.
    unbind. rewrite Hval. split; [done|].
    eexists _, _. split; [reflexivity|].
    pose proof (alloc_deref v s) as Hcell. simpl in Hcell.
    unfold value_Value, value_IsValid, mapEntry_IsValid, mapEntry_Value,
      set_elem; cbn [elem]. unbind.
    by rewrite Hcell, Hvalid.
Qed.

Lemma IsNil_and_Elem_of_nil_pointer_witness :
  value_IsNil (RV Example.nil_ptr) Example.s_empty = Ok true ∧
  ∃ h' s', value_Elem (RV Example.nil_ptr) Example.s_empty = Ok (h', s') ∧
    value_Value h' s' = Ok Zero ∧
    value_IsValid h' s' = Ok false.
Proof.
  apply (IsNil_and_Elem_of_nil_pointer (RV Example.nil_ptr) Example.s_empty Example.nil_ptr);
    reflexivity.
Defined.

(** ** [Len] *)

(** C9.  [Len()] on a handle whose value is of a kind without length (an
    integer, a boolean; also a pointer, a struct, an interface, the zero
    Value) panics with reflect's error for the call of [Len] on that kind. *)
Theorem Len_of_scalar_panics (h : value) (s : state) (v : Value) :
  value_Value h s = Ok v →
  has_Len (Value_Kind v) = false →
  value_Len h s = Panic (ValueError "Len" (Value_Kind v)).
Proof.
  intros Hval Hk.
  assert (Hlen : Value_Len v s = Panic (ValueError "Len" (Value_Kind v))).
  { unfold Value_Len. by destruct (Value_Kind v). }
  destruct h as [this|this]; simpl in *.
  - unfold reflectValue_Value in Hval. by injection Hval as ->.
  - unfold mapEntry_Len. unbind. by rewrite Hval.
Qed.

(** [Len()] on a handle for the int [2], and on the handle for ["a"] in the
    map of ints of the example. *)
Lemma Len_of_scalar_panics_witness :
  value_Len (RV Example.two) Example.s_int = Panic (ValueError "Len" KInt) ∧
  value_Len (ME Example.hN) Example.s_int = Panic (ValueError "Len" KInt).
Proof.
  split.
  - apply (Len_of_scalar_panics (RV Example.two) Example.s_int Example.two);
      reflexivity.
  - apply (Len_of_scalar_panics (ME Example.hN) Example.s_int
             (Direct TInt (VInt 1))); reflexivity.
Defined.

(** ** Read after write on a reflectValue *)

(** The field of an addressable struct and the element of a slice can be
    set. *)
Lemma Value_Field_CanSet (t : rtype) (a : addr) (n : nat) (f : Value) :
  Value_Field (Indirect t a) n = Ok f → Value_CanSet f = true.
Proof.
  destruct a as [l p]. simpl. destruct t; try discriminate.
  destruct (fields !! n) as [[fn ft]|]; [|discriminate]. by intros [= <-].
Qed.

Lemma Value_Index_CanSet (v : Value) (n : nat) (s : state) (f : Value) :
  Value_Index v n s = Ok f → Value_CanSet f = true.
Proof.
  intros H. destruct v as [|t x|t a]; simpl in H; try discriminate;
    destruct t; try discriminate; unbind;
    repeat case_match; by simplify_eq.
Qed.

(** C8 (P1, read-after-write, direct variant).  For the handle [this] of a
    struct field or of a slice element that can be set, and a valid [v] of a
    type assignable to the type of [this]: [Set(v)] returns the handle, and
    [Interface()] on it afterwards returns the interface value of [v]. *)
Theorem reflectValue_Set_then_Interface
  (parent : Value) (n : nat) (this : reflectValue) (v : Value) (s : state)
  (t tv : rtype) (old : gval) (i : eface) :
  Value_Field parent n = Ok this ∨ Value_Index parent n s = Ok this →
  Value_CanSet this = true →
  Value_Type this = Ok t →
  contents this s = Ok old →
  Value_Type v = Ok tv →
  assignable t tv = true →
  Value_Interface v s = Ok i →
  ∃ s', reflectValue_Set this v s = Ok (RV this, s') ∧
        reflectValue_Interface this s' = Ok i.
Proof.
  intros _ Hset Ht Hold Hv Ha Hi.
  destruct this as [|t' x|t' a]; try discriminate.
  injection Ht as ->. simpl in Hold.
  destruct (assignTo_ok v t tv s i Hv Ha Hi) as [y Hy].
  destruct (store_is_Some s a y) as [s' Hs'].
  { unfold expect in Hold. destruct (load s a); [eauto|discriminate]. }
  exists s'. unfold reflectValue_Set, reflectValue_Interface, Value_Set.
  assert (Hvalid : v ≠ Zero) by (intros ->; discriminate).
  split.
  - destruct v; try done; unbind; by rewrite Hy, Hs'.
  - rewrite (Value_Interface_Direct (Indirect t a) t y s' s); [|done|].
    + by eapply assignTo_Interface.
    + simpl. by rewrite (load_store s a y s').
Qed.

(** The field [Name] of the [Record] of the example, set to ["y"]. *)
Lemma reflectValue_Set_then_Interface_witness :
  ∃ s', reflectValue_Set (Indirect TString (0, [0]))
          (Direct TString (VString "y")) Example.s_full
        = Ok (RV (Indirect TString (0, [0])), s') ∧
        reflectValue_Interface (Indirect TString (0, [0])) s'
        = Ok (Some (TString, VString "y")).
Proof.
  apply (reflectValue_Set_then_Interface
           (Indirect Example.Record_t (0, [])) 0 (Indirect TString (0, [0]))
           (Direct TString (VString "y")) Example.s_full TString TString
           (VString "x"));
    try reflexivity.
  left. reflexivity.
Defined.

(** ** Descent through a map of pointers *)

Lemma unaffected_Direct (t : rtype) (x : gval) (s : state) (b : addr) :
  unaffected (Direct t x) s b.
Proof. by intros y s' _. Qed.

(** C1, as stated, fails on a handle without cached element.  The map of the
    example has a pointer to a [Record] under ["a"]; the value of the handle
    that one [Elem()] returns is that pointer, which has no field: [Field]
    on it panics, and so does the sequence [Elem()], [Value()], [Field(0)],
    [Set] of the field, before anything is written. *)
Lemma mapEntry_Elem_once_has_no_field :
  let v := Direct TString (VString "y") in
  mapEntry_Elem Example.h Example.s_full
  = Ok (ME Example.h_cached, Example.s_full_cached) ∧
  mapEntry_Value Example.h_cached Example.s_full_cached = Ok Example.ptr ∧
  Value_Field Example.ptr 0 = Panic (ValueError "Field" KPtr) ∧
  ('(h1, s1) ← mapEntry_Elem Example.h Example.s_full;
   r ← value_Value h1 s1;
   f ← Value_Field r 0;
   reflectValue_Set f v s1) = Panic (ValueError "Field" KPtr).
Proof. repeat split. Qed.

Section descent.
Variables (this : mapEntry) (s : state).
Variables (sn : string) (fields : list (string * rtype)).
Variables (a : addr) (pv : Value) (p : nat).
Variables (n : nat) (fname : string) (ft : rtype).

Let st : rtype := TStruct sn fields.
Let b : addr := (a.1, a.2 ++ [n]).

Hypothesis Hcache : elem this = Some p.
Hypothesis Hcell : deref p s = Ok pv.
Hypothesis Hpv : Value_Type pv = Ok (TPtr st).
Hypothesis Hptr : contents pv s = Ok (VPtr (Some a)).
Hypothesis Hfield : fields !! n = Some (fname, ft).

(** [Elem()] on a handle whose cached element is a pointer to a struct
    returns a handle whose value is the struct, addressable. *)
Lemma mapEntry_Elem_dereferences_pointer :
  ∃ this1 s1,
    mapEntry_Elem this s = Ok (ME this1, s1) ∧
    host this1 = host this ∧ key this1 = key this ∧
    mem s1 = mem s ∧ maps s1 = maps s ∧
    mapEntry_Value this1 s1 = Ok (Indirect st a) ∧
    Value_Field (Indirect st a) n = Ok (Indirect ft b).
Proof using Hcache Hcell Hpv Hptr Hfield.
  assert (Hderef : Value_Elem pv s = Ok (Indirect st a)).
  { destruct pv as [|t x|t c]; simpl in Hpv; try discriminate;
      injection Hpv as ->; unfold Value_Elem; cbv beta iota; unbind;
      by rewrite Hptr. }
  assert (Hfld : Value_Field (Indirect st a) n = Ok (Indirect ft b)).
  { unfold st, b. destruct a as [l q]. simpl. by rewrite Hfield. }
  exists (set_elem this (Some (length (vals s)))),
    (alloc (Indirect st a) s).2.
  split.
  - unfold mapEntry_Elem. rewrite Hcache. unbind.
    by rewrite Hcell, Hderef.
  - repeat split; try done.
    apply (alloc_deref (Indirect st a) s).
Qed.
End descent.

(** C1, amended (P4, chained descent through a map).  [M : map[kt]*st]
    holds under the key of the handle a pointer to a struct, and the handle
    addresses that pointer.  On a handle without cached element a first
    [Elem()] caches the pointer; a handle that has the pointer as cached
    element (after that first [Elem()], or as [Set] returns it) is taken as
    it is.  [Elem()] on the handle with the pointer cached returns a handle
    with the same host and key whose [Value()] is the struct; the field [n]
    of that value set to [v] changes what the map itself gives under the
    key: [M.MapIndex(K).Elem().Field(n).Interface()] is then the interface
    value of [v]. *)
Theorem mapEntry_Elem_then_field_Set_reaches_mapping
  (this : mapEntry) (s : state)
  (kt : rtype) (sn : string) (fields : list (string * rtype))
  (m : nat) (g : gomap) (k : gval) (a : addr) (pv : Value)
  (n : nat) (fname : string) (ft : rtype)
  (v : Value) (tv : rtype) (i : eface) :
  Value_Type (host this) = Ok (TMap kt (TPtr (TStruct sn fields))) →
  contents (host this) s = Ok (VMap (Some m)) →
  maps s !! m = Some g →
  assignTo (key this) kt s = Ok k →
  hashable k = true →
  mapaccess k g = Some (VPtr (Some a)) →
  mapEntry_Value this s = Ok pv →
  Value_Type pv = Ok (TPtr (TStruct sn fields)) →
  contents pv s = Ok (VPtr (Some a)) →
  fields !! n = Some (fname, ft) →
  is_Some (load s (a.1, a.2 ++ [n])) →
  unaffected (host this) s (a.1, a.2 ++ [n]) →
  unaffected (key this) s (a.1, a.2 ++ [n]) →
  Value_Type v = Ok tv →
  assignable ft tv = true →
  Value_Interface v s = Ok i →
  ∃ this0 s0 this1 s1 target fld s2,
    match elem this with
    | None => mapEntry_Elem this s
    | Some _ => Ok (ME this, s)
    end = Ok (ME this0, s0) ∧
    mapEntry_Value this0 s0 = Ok pv ∧
    mapEntry_Elem this0 s0 = Ok (ME this1, s1) ∧
    host this1 = host this ∧ key this1 = key this ∧
    mapEntry_Value this1 s1 = Ok target ∧
    Value_Kind target = KStruct ∧
    Value_Field target n = Ok fld ∧
    reflectValue_Set fld v s1 = Ok (RV fld, s2) ∧
    (p ← Value_MapIndex (host this) (key this) s2;
     r ← Value_Elem p s2;
     f ← Value_Field r n;
     Value_Interface f s2) = Ok i.
Proof.
  intros HM Hobj Hg HK Hh Hentry Hval Hpv Hptr Hfield Hplace HuM HuK Hv Ha Hi.
  set (st := TStruct sn fields) in *. set (b := (a.1, a.2 ++ [n])) in *.
  (* the handle with the pointer cached *)
  assert (∃ this0 s0 p0,
            match elem this with
            | None => mapEntry_Elem this s
            | Some _ => Ok (ME this, s)
            end = Ok (ME this0, s0) ∧
            host this0 = host this ∧ key this0 = key this ∧
            elem this0 = Some p0 ∧ deref p0 s0 = Ok pv ∧
            mem s0 = mem s ∧ maps s0 = maps s)
    as (this0 & s0 & p0 & H0 & Hhost0 & Hkey0 & Hcache0 & Hcell0 & Hmem0 & Hmaps0).
  { unfold mapEntry_Value in Hval.
    destruct (elem this) as [q|] eqn:Helem.
    - exists this, s, q. by repeat split.
    - exists (set_elem this (Some (length (vals s)))), (alloc pv s).2,
        (length (vals s)).
      split; [unfold mapEntry_Elem; by rewrite Helem, Hval|].
      repeat split. apply (alloc_deref pv s). }
  assert (Hptr0 : contents pv s0 = Ok (VPtr (Some a)))
    by (by rewrite (contents_mem pv s0 s)).
  destruct (mapEntry_Elem_dereferences_pointer this0 s0 sn fields a pv p0 n
              fname ft Hcache0 Hcell0 Hpv Hptr0 Hfield)
    as (this1 & s1 & Helem1 & Hhost1 & Hkey1 & Hmem1 & Hmaps1 & Hval1 & Hfld).
  fold st b in Hval1, Hfld.
  assert (Hmem : mem s1 = mem s) by congruence.
  assert (Hmaps : maps s1 = maps s) by congruence.
  assert (Hi1 : Value_Interface v s1 = Ok i).
  { by rewrite (Value_Interface_contents v s1 s) by (by apply contents_mem). }
  destruct (assignTo_ok v ft tv s1 i Hv Ha Hi1) as [y Hy].
  destruct (store_is_Some s1 b y) as [s2 Hs2].
  { unfold load in *. by rewrite Hmem. }
  destruct (store_frame s1 b y s2 Hs2) as [Hmaps2 Hvals2].
  pose proof (store_mem s1 s b y s2 Hmem Hs2) as Hs.
  exists this0, s0, this1, s1, (Indirect st a), (Indirect ft b), s2.
  split; [exact H0|].
  split; [unfold mapEntry_Value; by rewrite Hcache0|].
  split; [exact Helem1|].
  split; [congruence|]. split; [congruence|].
  split; [exact Hval1|]. split; [done|]. split; [exact Hfld|].
  split.
  - unfold reflectValue_Set, Value_Set.
    assert (v ≠ Zero) by (intros ->; discriminate).
    destruct v; try done; unbind; by rewrite Hy, Hs2.
  - assert (HcM : contents (host this) s2 = Ok (VMap (Some m))).
    { rewrite <- Hobj, <- (HuM y _ Hs). by apply contents_mem. }
    assert (HK2 : assignTo (key this) kt s2 = Ok k).
    { rewrite <- HK. apply assignTo_contents.
      rewrite <- (HuK y _ Hs). by apply contents_mem. }
    assert (Hidx : Value_MapIndex (host this) (key this) s2
                   = Ok (Direct (TPtr st) (VPtr (Some a)))).
    { destruct (host this) as [|tM xM|tM aM]; simpl in HM; try discriminate;
        injection HM as ->; unfold Value_MapIndex; cbv beta iota;
        rewrite HK2; unbind; rewrite HcM, Hh, Hmaps2, Hmaps, Hg; simpl;
        by rewrite Hentry. }
    unbind. rewrite Hidx. simpl Value_Elem. cbv beta iota. rewrite Hfld.
    rewrite (Value_Interface_Direct (Indirect ft b) ft y s2 s1); [|done|].
    + by eapply assignTo_Interface.
    + simpl. by rewrite (load_store s1 b y s2).
Qed.

(** The map of the example holds a pointer to [Record{Name: "x"}] under
    ["a"]; the handle has no cache.  After [Elem()] twice, the field [Name]
    of the value is set to ["y"], and the map gives a record named ["y"]
    under ["a"]. *)
Lemma mapEntry_Elem_then_field_Set_reaches_mapping_witness :
  ∃ this0 s0 this1 s1 target fld s2,
    mapEntry_Elem Example.h Example.s_full = Ok (ME this0, s0) ∧
    mapEntry_Value this0 s0 = Ok Example.ptr ∧
    mapEntry_Elem this0 s0 = Ok (ME this1, s1) ∧
    host this1 = Example.M ∧ key this1 = Example.K ∧
    mapEntry_Value this1 s1 = Ok target ∧
    Value_Kind target = KStruct ∧
    Value_Field target 0 = Ok fld ∧
    reflectValue_Set fld (Direct TString (VString "y")) s1 = Ok (RV fld, s2) ∧
    (p ← Value_MapIndex Example.M Example.K s2;
     r ← Value_Elem p s2;
     f ← Value_Field r 0;
     Value_Interface f s2) = Ok (Some (TString, VString "y")).
Proof.
  apply (mapEntry_Elem_then_field_Set_reaches_mapping Example.h Example.s_full
           TString "Record" [("Name", TString)] 0
           [(VString "a", VPtr (Some (0, [])))] (VString "a") (0, [])
           Example.ptr 0 "Name" TString (Direct TString (VString "y")) TString);
    try reflexivity.
  - eexists. reflexivity.
  - apply unaffected_Direct.
  - apply unaffected_Direct.
Defined.

(** * Further properties of value.go *)

Section more_memory.
Implicit Types (s : state) (a : addr) (x y : gval) (p : list nat).

(** A store into a field or element leaves its siblings. *)
Lemma sub_upd_sibling p : ∀ x y x' i j,
  i ≠ j → upd x (p ++ [i]) y = Some x' →
  sub x' (p ++ [j]) = sub x (p ++ [j]).
Proof.
  induction p as [|i0 p IH]; intros x y x' i j Hne H; simpl in *.
  - destruct x; try discriminate;
      destruct (_ !! i) as [z|] eqn:Hi; simpl in H; try discriminate;
      injection H as <-; simpl; by rewrite list_lookup_insert_ne.
  - destruct x; try discriminate;
      destruct (_ !! i0) as [z|] eqn:Hi; simpl in H; try discriminate;
      destruct (upd z (p ++ [i]) y) as [z'|] eqn:Hz; simpl in H;
      try discriminate; injection H as <-; simpl;
      rewrite list_lookup_insert_eq by (by eapply lookup_lt_Some);
      simpl; by eapply IH.
Qed.

Lemma store_sibling s l p i j y s' :
  i ≠ j → store s (l, p ++ [i]) y = Some s' →
  load s' (l, p ++ [j]) = load s (l, p ++ [j]).
Proof.
  unfold store, load; simpl. intros Hne H.
  destruct (mem s !! l) as [x|] eqn:Hx; simpl in H; [|discriminate].
  destruct (upd x (p ++ [i]) y) as [x'|] eqn:Hu; simpl in H; [|discriminate].
  injection H as <-. simpl.
  rewrite list_lookup_insert_eq by (by eapply lookup_lt_Some).
  simpl. by eapply sub_upd_sibling.
Qed.

Lemma store_other_object s a y s' l :
  l ≠ a.1 → store s a y = Some s' → mem s' !! l = mem s !! l.
Proof.
  unfold store. intros Hne H.
  destruct (mem s !! a.1) as [x|]; simpl in H; [|discriminate].
  destruct (upd x a.2 y) as [x'|]; simpl in H; [|discriminate].
  injection H as <-. simpl. by rewrite list_lookup_insert_ne.
Qed.
End more_memory.

Section more_mapobjects.
Implicit Types (k e : gval) (g : gomap).

Lemma mapaccess_mapdelete k g : mapaccess k (mapdelete k g) = None.
Proof.
  induction g as [|[k' e'] g IH]; simpl; [done|].
  destruct (decide (k = k')); simpl; [done|]. by rewrite decide_False.
Qed.

Lemma mapaccess_mapdelete_ne k k' g :
  k ≠ k' → mapaccess k' (mapdelete k g) = mapaccess k' g.
Proof.
  intros Hne. induction g as [|[k0 e0] g IH]; simpl; [done|].
  destruct (decide (k = k0)) as [->|]; simpl.
  - by rewrite decide_False.
  - by rewrite IH.
Qed.

Lemma length_mapassign k e g :
  length (mapassign k e g)
  = match mapaccess k g with
    | Some _ => length g
    | None => S (length g)
    end.
Proof.
  induction g as [|[k' e'] g IH]; simpl; [done|].
  destruct (decide (k = k')); simpl; [done|].
  rewrite IH. by destruct (mapaccess k g).
Qed.
End more_mapobjects.

Section more_reflect.
Implicit Types (s : state) (v : Value) (t : rtype).

Lemma Value_IsNil_contents v s s' :
  contents v s = contents v s' → Value_IsNil v s = Value_IsNil v s'.
Proof. intros H. unfold Value_IsNil. unbind. by rewrite H. Qed.

(** [MapIndex] and [Len] read the memory and the map objects only. *)
Lemma Value_MapIndex_ext (M K : Value) s s' :
  mem s = mem s' → maps s = maps s' →
  Value_MapIndex M K s = Value_MapIndex M K s'.
Proof.
  intros Hmem Hmaps. unfold Value_MapIndex.
  rewrite (contents_mem M s s' Hmem).
  destruct M as [|t x|t a]; try done; destruct t; try done;
    rewrite (assignTo_contents K _ s s' (contents_mem K s s' Hmem));
    by rewrite Hmaps.
Qed.

Lemma Value_Len_ext v s s' :
  mem s = mem s' → maps s = maps s' → Value_Len v s = Value_Len v s'.
Proof.
  intros Hmem Hmaps. unfold Value_Len.
  by rewrite (contents_mem v s s' Hmem), Hmaps.
Qed.

(** What [MapIndex] returns is the zero Value or a copy of the element type
    of the map. *)
Lemma Value_MapIndex_inv (M K : Value) s e :
  Value_MapIndex M K s = Ok e →
  e = Zero ∨ ∃ kt et x, Value_Type M = Ok (TMap kt et) ∧ e = Direct et x.
Proof.
  intros H. destruct M as [|t x|t a]; simpl in H; try discriminate;
    destruct t; try discriminate; unbind;
    repeat case_match; simplify_eq; eauto 10.
Qed.

Lemma Value_Field_Direct t x n f :
  Value_Field (Direct t x) n = Ok f → ∃ ft y, f = Direct ft y.
Proof.
  simpl. destruct t; try discriminate.
  destruct (fields !! n) as [[fn ft]|]; [|discriminate].
  destruct x; try discriminate. unbind.
  destruct (expect (fs !! n)); [|discriminate]. intros [= <-]. eauto.
Qed.

Lemma Value_Set_unaddressable v x s :
  Value_IsValid v = true → Value_CanSet v = false →
  Value_Set v x s = Panic Unaddressable.
Proof. by destruct v. Qed.

Lemma assignTo_not_assignable v dst tv s :
  Value_Type v = Ok tv → assignable dst tv = false →
  assignTo v dst s = Panic NotAssignable.
Proof.
  unfold assignable. intros Hv Ha.
  apply orb_false_iff in Ha as [H1 H2].
  apply bool_decide_eq_false in H1, H2.
  destruct v as [|t x|t a]; simpl in *; try discriminate;
    injection Hv as ->; by rewrite !decide_False.
Qed.
End more_reflect.

(** ** What [mapEntry.Set] does to the map *)

(** [Set] with the zero Value deletes the entry: on a handle whose host
    refers to a map object, [Set(reflect.Value{})] returns; the map object has
    lost the key and kept every other one, [MapIndex] under the key is the
    zero Value, and neither the returned handle nor a handle without cache is
    valid. *)
Theorem mapEntry_Set_Zero_deletes
  (this : mapEntry) (s : state) (kt et : rtype) (m : nat) (g : gomap)
  (k : gval) :
  Value_Type (host this) = Ok (TMap kt et) →
  contents (host this) s = Ok (VMap (Some m)) →
  maps s !! m = Some g →
  assignTo (key this) kt s = Ok k →
  hashable k = true →
  ∃ this' s',
    mapEntry_Set this Zero s = Ok (ME this', s') ∧
    maps s' !! m = Some (mapdelete k g) ∧
    Value_MapIndex (host this) (key this) s' = Ok Zero ∧
    mapEntry_IsValid this' s' = Ok false ∧
    mapEntry_IsValid (set_elem this None) s' = Ok false.
Proof.
  destruct this as [M K c nm]; simpl. intros HM Hc Hg HK Hh.
  assert (HK0 : K ≠ Zero) by (intros ->; discriminate).
  set (s1 := (alloc Zero s).2).
  set (s' := set_maps s1 m (mapdelete k g)).
  assert (Hc' : contents M s' = Ok (VMap (Some m)))
    by (by rewrite <- (contents_mem M s s')).
  assert (HK' : assignTo K kt s' = Ok k)
    by (by rewrite <- (assignTo_contents K kt s s') by (by apply contents_mem)).
  assert (Hg' : maps s' !! m = Some (mapdelete k g)).
  { simpl. apply list_lookup_insert_eq. by eapply lookup_lt_Some. }
  assert (Hidx : Value_MapIndex M K s' = Ok Zero).
  { destruct M as [|tM xM|tM aM]; simpl in HM; try discriminate;
      injection HM as ->; unfold Value_MapIndex; cbv beta iota;
      rewrite HK'; unbind; rewrite Hc', Hh, Hg'; simpl;
      by rewrite mapaccess_mapdelete. }
  exists (mkMapEntry M K (Some (length (vals s))) nm), s'.
  split; [|split; [done|split; [done|split]]].
  - unfold mapEntry_Set. change (alloc Zero s) with (length (vals s), s1).
    cbv beta iota. unfold set_elem; cbn [host key name].
    assert (Hc1 : contents M s1 = Ok (VMap (Some m)))
      by (by rewrite <- (contents_mem M s s1)).
    assert (HK1 : assignTo K kt s1 = Ok k)
      by (by rewrite <- (assignTo_contents K kt s s1) by (by apply contents_mem)).
    destruct M as [|tM xM|tM aM]; simpl in HM; try discriminate;
      injection HM as ->; destruct K as [|tK xK|tK aK]; try done;
      unfold Value_SetMapIndex; cbv beta iota;
      rewrite HK1; unbind; rewrite Hc1, Hh; cbn [maps s1 alloc snd];
      by rewrite Hg.
  - unfold mapEntry_IsValid, mapEntry_Value; cbn [elem]. unbind.
    pose proof (alloc_deref Zero s) as Hcell.
    unfold deref in *. simpl in *. by rewrite Hcell.
  - unfold mapEntry_IsValid, mapEntry_Value, set_elem; cbn [elem host key].
    unbind. by rewrite Hidx.
Qed.

Lemma mapEntry_Set_Zero_deletes_witness :
  ∃ this' s',
    mapEntry_Set Example.h Zero Example.s_full = Ok (ME this', s') ∧
    maps s' !! 0 = Some [] ∧
    Value_MapIndex Example.M Example.K s' = Ok Zero ∧
    mapEntry_IsValid this' s' = Ok false ∧
    mapEntry_IsValid (set_elem Example.h None) s' = Ok false.
Proof.
  apply (mapEntry_Set_Zero_deletes Example.h Example.s_full TString
           (TPtr Example.Record_t) 0 [(VString "a", VPtr (Some (0, [])))]
           (VString "a")); reflexivity.
Defined.

(** [Set] changes one entry of one map object: the memory is as it was, the
    other map objects are as they were, and [MapIndex] on the host under any
    other key returns what it returned. *)
Theorem mapEntry_Set_frame
  (this : mapEntry) (v : Value) (s : state)
  (kt et tv : rtype) (m : nat) (g : gomap) (k : gval) (i : eface)
  (h' : value) (s' : state) :
  Value_Type (host this) = Ok (TMap kt et) →
  contents (host this) s = Ok (VMap (Some m)) →
  maps s !! m = Some g →
  assignTo (key this) kt s = Ok k →
  hashable k = true →
  Value_Type v = Ok tv →
  assignable et tv = true →
  Value_Interface v s = Ok i →
  mapEntry_Set this v s = Ok (h', s') →
  mem s' = mem s ∧
  length (maps s') = length (maps s) ∧
  (∀ m', m' ≠ m → maps s' !! m' = maps s !! m') ∧
  ∀ K' k', assignTo K' kt s = Ok k' → k' ≠ k →
    Value_MapIndex (host this) K' s' = Value_MapIndex (host this) K' s.
Proof.
  intros HM Hc Hg HK Hh Hv Ha Hi Hset.
  destruct (mapEntry_Set_steps this v s kt et tv m g k i)
    as (y & Hy & Hset' & _); try done.
  cbv zeta in Hset'. rewrite Hset' in Hset. injection Hset as <- <-.
  destruct this as [M K c nm]; simpl in HM, Hc, HK; simpl.
  set (s' := mkState _ _ _).
  assert (Hmem : mem s = mem s') by done.
  split; [done|]. split; [apply length_insert|].
  split; [intros m' Hne; simpl; by rewrite list_lookup_insert_ne|].
  intros K' k' HK' Hne.
  assert (HK'' : assignTo K' kt s' = Ok k')
    by (by rewrite <- (assignTo_contents K' kt s s') by (by apply contents_mem)).
  assert (Hc' : contents M s' = Ok (VMap (Some m)))
    by (by rewrite <- (contents_mem _ s s')).
  assert (Hg' : maps s' !! m = Some (mapassign k y g)).
  { simpl. apply list_lookup_insert_eq. by eapply lookup_lt_Some. }
  destruct M as [|tM xM|tM aM]; simpl in HM; try discriminate;
    injection HM as ->; unfold Value_MapIndex; cbv beta iota;
    rewrite HK', HK''; unbind; rewrite Hc, Hc', Hg', Hg; simpl;
    by rewrite mapaccess_mapassign_ne.
Qed.

(** In the map of ints of the example, [Set(2)] under ["a"]: the other map
    object and the key ["b"] are as before. *)
Lemma mapEntry_Set_frame_witness :
  mem Example.s_int_set = mem Example.s_int_cached ∧
  length (maps Example.s_int_set) = length (maps Example.s_int_cached) ∧
  (∀ m', m' ≠ 0 →
     maps Example.s_int_set !! m' = maps Example.s_int_cached !! m') ∧
  ∀ K' k', assignTo K' TString Example.s_int_cached = Ok k' →
    k' ≠ VString "a" →
    Value_MapIndex Example.N K' Example.s_int_set
    = Value_MapIndex Example.N K' Example.s_int_cached.
Proof.
  apply (mapEntry_Set_frame Example.hN_cached Example.two
           Example.s_int_cached TString TInt TInt 0 [(VString "a", VInt 1)]
           (VString "a") (Some (TInt, VInt 2))
           (ME (set_elem Example.hN_cached (Some 1))));
    reflexivity.
Defined.

(** [Len()] of the host counts the entries: [Set] of a valid value under a
    key the map has leaves it, under a key the map has not adds one. *)
Theorem mapEntry_Set_host_Len
  (this : mapEntry) (v : Value) (s : state)
  (kt et tv : rtype) (m : nat) (g : gomap) (k : gval) (i : eface) :
  Value_Type (host this) = Ok (TMap kt et) →
  contents (host this) s = Ok (VMap (Some m)) →
  maps s !! m = Some g →
  assignTo (key this) kt s = Ok k →
  hashable k = true →
  Value_Type v = Ok tv →
  assignable et tv = true →
  Value_Interface v s = Ok i →
  reflectValue_Len (host this) s = Ok (length g) ∧
  ∃ h' s', mapEntry_Set this v s = Ok (h', s') ∧
    reflectValue_Len (host this) s'
    = Ok (match mapaccess k g with
          | Some _ => length g
          | None => S (length g)
          end).
Proof.
  intros HM Hc Hg HK Hh Hv Ha Hi.
  destruct (mapEntry_Set_steps this v s kt et tv m g k i)
    as (y & Hy & Hset & _); try done.
  cbv zeta in Hset.
  assert (Hkind : Value_Kind (host this) = KMap).
  { destruct (host this); simpl in HM; try discriminate; by injection HM as ->. }
  split.
  - unfold reflectValue_Len, Value_Len. rewrite Hkind. unbind.
    rewrite Hc. cbv beta iota. unfold gomap in *. by rewrite Hg.
  - eexists _, _. split; [exact Hset|].
    unfold reflectValue_Len, Value_Len. rewrite Hkind. unbind.
    rewrite <- (contents_mem (host this) s) by done. rewrite Hc.
    cbv beta iota. cbn [maps]. unfold gomap in *.
    rewrite list_lookup_insert_eq by (by eapply lookup_lt_Some). simpl.
    by rewrite length_mapassign.
Qed.

Lemma mapEntry_Set_host_Len_witness :
  reflectValue_Len Example.M Example.s_empty = Ok 0 ∧
  ∃ h' s', mapEntry_Set Example.h Example.ptr Example.s_empty = Ok (h', s') ∧
    reflectValue_Len Example.M s' = Ok 1.
Proof.
  apply (mapEntry_Set_host_Len Example.h Example.ptr Example.s_empty TString
           (TPtr Example.Record_t) (TPtr Example.Record_t) 0 [] (VString "a")
           (Some (TPtr Example.Record_t, VPtr (Some (0, [])))));
    reflexivity.
Defined.

(** [Set] of a valid value on a handle whose host is a nil map panics, with
    the panic of an assignment to an entry of a nil map. *)
Theorem mapEntry_Set_nil_map
  (this : mapEntry) (v : Value) (s : state) (kt et tv : rtype) (k : gval)
  (i : eface) :
  Value_Type (host this) = Ok (TMap kt et) →
  contents (host this) s = Ok (VMap None) →
  assignTo (key this) kt s = Ok k →
  Value_Type v = Ok tv →
  assignable et tv = true →
  Value_Interface v s = Ok i →
  mapEntry_Set this v s = Panic NilMapAssignment.
Proof.
  destruct this as [M K c nm]; simpl. intros HM Hc HK Hv Ha Hi.
  assert (HK0 : K ≠ Zero) by (intros ->; discriminate).
  assert (Hv0 : v ≠ Zero) by (intros ->; discriminate).
  destruct (assignTo_ok v et tv s i Hv Ha Hi) as [y Hy].
  set (s1 := (alloc v s).2).
  assert (Hc1 : contents M s1 = Ok (VMap None))
    by (by rewrite <- (contents_mem M s s1)).
  assert (HK1 : assignTo K kt s1 = Ok k)
    by (by rewrite <- (assignTo_contents K kt s s1) by (by apply contents_mem)).
  assert (Hy1 : assignTo v et s1 = Ok y)
    by (by rewrite <- (assignTo_contents v et s s1) by (by apply contents_mem)).
  unfold mapEntry_Set. change (alloc v s) with (length (vals s), s1).
  cbv beta iota. unfold set_elem; cbn [host key name].
  destruct M as [|tM xM|tM aM]; simpl in HM; try discriminate;
    injection HM as ->; destruct K as [|tK xK|tK aK]; try done;
    unfold Value_SetMapIndex; cbv beta iota;
    rewrite HK1; unbind; rewrite Hc1; destruct v; try done;
    by rewrite Hy1.
Qed.

Lemma mapEntry_Set_nil_map_witness :
  mapEntry_Set (mkMapEntry Example.nil_map Example.K None "a") Example.two
    Example.s_empty = Panic NilMapAssignment.
Proof.
  apply (mapEntry_Set_nil_map (mkMapEntry Example.nil_map Example.K None "a")
           Example.two Example.s_empty TString TInt TInt (VString "a")
           (Some (TInt, VInt 2))); reflexivity.
Defined.

(** ** Reads that [Elem] leaves alone *)

(** The reading methods of a handle return in a state that extends [s] what
    they return in [s]. *)
Lemma reads_extends (h0 : value) (s s' : state) (v0 : Value) :
  extends s s' →
  value_Value h0 s = Ok v0 →
  value_Value h0 s' = Ok v0 ∧
  value_Interface h0 s' = value_Interface h0 s ∧
  value_IsValid h0 s' = value_IsValid h0 s ∧
  value_Len h0 s' = value_Len h0 s ∧
  value_IsNil h0 s' = value_IsNil h0 s ∧
  value_Type h0 s' = value_Type h0 s.
Proof.
  intros (Hmem & Hmaps & Hcells) Hval.
  assert (Hc : ∀ v, contents v s' = contents v s)
    by (intros v; by apply contents_mem).
  destruct h0 as [this|[M K [p|] nm]]; simpl in *.
  - unfold reflectValue_Interface, reflectValue_Len, reflectValue_IsNil.
    rewrite (Value_Interface_contents this s' s) by apply Hc.
    rewrite (Value_IsNil_contents this s' s) by apply Hc.
    rewrite (Value_Len_ext this s' s) by done. done.
  - unfold mapEntry_Interface, mapEntry_IsValid, mapEntry_Len,
      mapEntry_IsNil, mapEntry_Type, mapEntry_Value in *; cbn [elem host key] in *.
    assert (Hp : deref p s' = Ok v0).
    { unfold deref, expect in *. destruct (vals s !! p) as [e|] eqn:He;
        [|discriminate]. injection Hval as ->. by rewrite (Hcells p v0 He). }
    unbind. rewrite Hp, Hval. cbv beta iota.
    rewrite (Value_Interface_contents v0 s' s) by apply Hc.
    rewrite (Value_IsNil_contents v0 s' s) by apply Hc.
    rewrite (Value_Len_ext v0 s' s) by done. done.
  - unfold mapEntry_Interface, mapEntry_IsValid, mapEntry_Len,
      mapEntry_IsNil, mapEntry_Type, mapEntry_Value in *; cbn [elem host key] in *.
    unbind. rewrite (Value_MapIndex_ext M K s' s) by done. rewrite Hval.
    cbv beta iota.
    rewrite (Value_Interface_contents v0 s' s) by apply Hc.
    rewrite (Value_IsNil_contents v0 s' s) by apply Hc.
    rewrite (Value_Len_ext v0 s' s) by done. done.
Qed.

(** [mapEntry.Elem] changes nothing that can be read: after it the memory
    and the map objects are the same, and every handle there was, of either
    kind, returns from [Value], [Interface], [IsValid], [Len], [IsNil] and
    [Type] what it returned. *)
Theorem mapEntry_Elem_preserves_reads
  (this : mapEntry) (s : state) (h' : value) (s' : state)
  (h0 : value) (v0 : Value) :
  mapEntry_Elem this s = Ok (h', s') →
  value_Value h0 s = Ok v0 →
  mem s' = mem s ∧ maps s' = maps s ∧
  value_Value h0 s' = Ok v0 ∧
  value_Interface h0 s' = value_Interface h0 s ∧
  value_IsValid h0 s' = value_IsValid h0 s ∧
  value_Len h0 s' = value_Len h0 s ∧
  value_IsNil h0 s' = value_IsNil h0 s ∧
  value_Type h0 s' = value_Type h0 s.
Proof.
  intros Helem Hval.
  assert (Hext : extends s s').
  { unfold mapEntry_Elem in Helem. bind_inv Helem.
    change (alloc a s) with (length (vals s), (alloc a s).2) in Helem.
    cbv beta iota in Helem. injection Helem as <- <-.
    repeat split. intros p e Hp. simpl. by apply lookup_app_l_Some. }
  destruct Hext as (Hmem & Hmaps & Hcells).
  split; [done|]. split; [done|].
  by apply reads_extends.
Qed.

(** After [Elem()] on the handle for ["a"] in the map of ints, the handle
    for ["a"] in the map of interfaces reads as before. *)
Lemma mapEntry_Elem_preserves_reads_witness :
  let s := Example.s_int in
  let s' := Example.s_int_cached in
  let h0 := ME Example.hI in
  mem s' = mem s ∧ maps s' = maps s ∧
  value_Value h0 s' = Ok (Direct TInterface (VIface (Some (TInt, VInt 7)))) ∧
  value_Interface h0 s' = value_Interface h0 s ∧
  value_IsValid h0 s' = value_IsValid h0 s ∧
  value_Len h0 s' = value_Len h0 s ∧
  value_IsNil h0 s' = value_IsNil h0 s ∧
  value_Type h0 s' = value_Type h0 s.
Proof.
  apply (mapEntry_Elem_preserves_reads Example.hN Example.s_int
           (ME Example.hN_cached)); reflexivity.
Defined.

(** ** What cannot be set *)

(** The value of a map entry cannot be changed in place.  What [Value()] of
    a handle without cache returns, whatever the element type of the map, is
    never addressable, and [Set] on a [reflectValue] made of it never
    returns: it panics as on an unaddressable value, or as on the zero Value
    when the key is absent.  The same holds for every field of it, when it is
    a struct. *)
Theorem map_entry_value_not_settable
  (this : mapEntry) (s : state) (sv : Value) :
  elem this = None →
  mapEntry_Value this s = Ok sv →
  Value_CanSet sv = false ∧
  (∀ v, reflectValue_Set sv v s
        = Panic (if Value_IsValid sv then Unaddressable
                 else ValueError "Set" KInvalid)) ∧
  ∀ n f, Value_Field sv n = Ok f →
    Value_CanSet f = false ∧
    ∀ v, reflectValue_Set f v s = Panic Unaddressable.
Proof.
  intros Hnil Hval. unfold mapEntry_Value in Hval. rewrite Hnil in Hval.
  destruct (Value_MapIndex_inv _ _ _ _ Hval) as [->|(kt & et & x & _ & ->)].
  - repeat split; try done. all: intros n f Hf; discriminate.
  - split; [done|]. split; [done|].
    intros n f Hf.
    destruct (Value_Field_Direct _ _ _ _ Hf) as (ft & y & ->). done.
Qed.

(** The int under ["a"] in [N : map[string]int], the pointer under ["a"] in
    [M : map[string]*Record], the key that the empty map has not, and in
    [R : map[string]Record] the record under ["a"] and its field [Name]. *)
Lemma map_entry_value_not_settable_witness :
  let v := Direct TString (VString "y") in
  (Value_CanSet (Direct TInt (VInt 1)) = false ∧
   reflectValue_Set (Direct TInt (VInt 1)) Example.two Example.s_int
   = Panic Unaddressable) ∧
  (Value_CanSet Example.ptr = false ∧
   reflectValue_Set Example.ptr Example.ptr Example.s_full
   = Panic Unaddressable) ∧
  reflectValue_Set Zero v Example.s_empty
  = Panic (ValueError "Set" KInvalid) ∧
  (reflectValue_Set (Direct Example.Record_t (VStruct [VString "x"])) v
     Example.s_rec = Panic Unaddressable ∧
   Value_CanSet (Direct TString (VString "x")) = false ∧
   reflectValue_Set (Direct TString (VString "x")) v Example.s_rec
   = Panic Unaddressable).
Proof.
  intros v.
  destruct (map_entry_value_not_settable Example.hN Example.s_int
              (Direct TInt (VInt 1)) eq_refl eq_refl) as (N1 & N2 & _).
  destruct (map_entry_value_not_settable Example.h Example.s_full
              Example.ptr eq_refl eq_refl) as (P1 & P2 & _).
  destruct (map_entry_value_not_settable Example.h Example.s_empty
              Zero eq_refl eq_refl) as (_ & Z2 & _).
  destruct (map_entry_value_not_settable Example.hR Example.s_rec
              (Direct Example.Record_t (VStruct [VString "x"]))
              eq_refl eq_refl) as (_ & R2 & R3).
  destruct (R3 0 (Direct TString (VString "x")) eq_refl) as [F1 F2].
  split; [split; [exact N1|exact (N2 Example.two)]|].
  split; [split; [exact P1|exact (P2 Example.ptr)]|].
  split; [exact (Z2 v)|].
  split; [exact (R2 v)|]. split; [exact F1|exact (F2 v)].
Defined.

(** [Set] with a value of a type that is not assignable panics: on a
    [reflectValue] that can be set to the type [t], and on a [mapEntry] whose
    host is a map with element type [t]. *)
Theorem Set_not_assignable_panics (v : Value) (tv t : rtype) :
  Value_Type v = Ok tv →
  assignable t tv = false →
  (∀ a s, reflectValue_Set (Indirect t a) v s = Panic NotAssignable) ∧
  (∀ this s kt k x,
     Value_Type (host this) = Ok (TMap kt t) →
     assignTo (key this) kt s = Ok k →
     contents (host this) s = Ok x →
     mapEntry_Set this v s = Panic NotAssignable).
Proof.
  intros Hv Ha.
  assert (Hv0 : v ≠ Zero) by (intros ->; discriminate).
  split.
  - intros a s. unfold reflectValue_Set, Value_Set. unbind.
    destruct v; try done; by rewrite (assignTo_not_assignable _ t tv s Hv Ha).
  - intros [M K c nm] s kt k x; simpl. intros HM HK Hc.
    assert (HK0 : K ≠ Zero) by (intros ->; discriminate).
    set (s1 := (alloc v s).2).
    assert (Hc1 : contents M s1 = Ok x)
      by (by rewrite <- (contents_mem M s s1)).
    assert (HK1 : assignTo K kt s1 = Ok k)
      by (by rewrite <- (assignTo_contents K kt s s1)
            by (by apply contents_mem)).
    unfold mapEntry_Set. change (alloc v s) with (length (vals s), s1).
    cbv beta iota. unfold set_elem; cbn [host key name].
    destruct M as [|tM xM|tM aM]; simpl in HM; try discriminate;
      injection HM as ->; destruct K as [|tK xK|tK aK]; try done;
      unfold Value_SetMapIndex; cbv beta iota;
      rewrite HK1; unbind; rewrite Hc1; destruct v; try done;
      by rewrite (assignTo_not_assignable _ t tv s1 Hv Ha).
Qed.

(** A string set where an int is expected: the field [A] of the pair, and
    the entry ["a"] of the map of ints. *)
Lemma Set_not_assignable_panics_witness :
  reflectValue_Set (Indirect TInt (0, [0])) Example.K Example.s_pair
  = Panic NotAssignable ∧
  mapEntry_Set Example.hN Example.K Example.s_int = Panic NotAssignable.
Proof.
  destruct (Set_not_assignable_panics Example.K TString TInt eq_refl eq_refl)
    as [H1 H2].
  split; [apply H1|].
  apply (H2 Example.hN Example.s_int TString (VString "a") (VMap (Some 0)));
    reflexivity.
Defined.

(** [Set] on a field of a struct leaves the other fields of the struct, the
    other objects of the memory, the map objects and the cells. *)
Theorem reflectValue_Set_other_field
  (sn : string) (fields : list (string * rtype)) (a : addr)
  (n n' : nat) (f f' v : Value) (s : state) (h' : value) (s' : state) :
  Value_Field (Indirect (TStruct sn fields) a) n = Ok f →
  Value_Field (Indirect (TStruct sn fields) a) n' = Ok f' →
  n ≠ n' →
  reflectValue_Set f v s = Ok (h', s') →
  reflectValue_Interface f' s' = reflectValue_Interface f' s ∧
  (∀ l, l ≠ a.1 → mem s' !! l = mem s !! l) ∧
  maps s' = maps s ∧ vals s' = vals s.
Proof.
  destruct a as [l p]. simpl. intros Hf Hf' Hne Hset.
  destruct (fields !! n) as [[fn ft]|]; [|discriminate].
  destruct (fields !! n') as [[fn' ft']|]; [|discriminate].
  injection Hf as <-. injection Hf' as <-.
  unfold reflectValue_Set in Hset. unbind.
  destruct (Value_Set (Indirect ft (l, p ++ [n])) v s) as [s1|] eqn:E;
    [|discriminate].
  injection Hset as <- <-.
  assert (∃ y, store s (l, p ++ [n]) y = Some s1) as [y Hst].
  { simpl in E. destruct v; try discriminate; unbind;
      destruct (assignTo _ _ _) as [y|]; try discriminate;
      unfold expect in E; destruct (store s _ y) eqn:Hs; simplify_eq; eauto. }
  destruct (store_frame _ _ _ _ Hst) as [Hmaps Hvals].
  split; [|split; [|done]].
  - unfold reflectValue_Interface. apply Value_Interface_contents. simpl.
    by rewrite (store_sibling s l p n n' y s1 Hne Hst).
  - intros l' Hl'. by apply (store_other_object s (l, p ++ [n]) y s1).
Qed.

(** The pair of the example: [A] is set to [5], [B] is still [2]. *)
Lemma reflectValue_Set_other_field_witness :
  let s' := mkState [VStruct [VInt 5; VInt 2]] [] [] in
  reflectValue_Interface (Indirect TInt (0, [1])) s'
  = reflectValue_Interface (Indirect TInt (0, [1])) Example.s_pair ∧
  (∀ l, l ≠ 0 → mem s' !! l = mem Example.s_pair !! l) ∧
  maps s' = maps Example.s_pair ∧ vals s' = vals Example.s_pair.
Proof.
  apply (reflectValue_Set_other_field "Pair" [("A", TInt); ("B", TInt)]
           (0, []) 0 1 (Indirect TInt (0, [0])) (Indirect TInt (0, [1]))
           (Direct TInt (VInt 5)) Example.s_pair
           (RV (Indirect TInt (0, [0])))); try reflexivity.
  discriminate.
Defined.

(** ** Panics by kind *)

(** [IsNil()] on a handle whose value is of a kind without nil (an integer, a
    boolean, a string, a struct, the zero Value of an absent key) panics with
    reflect's error for the call of [IsNil] on that kind. *)
Theorem IsNil_of_other_kind_panics (h : value) (s : state) (v : Value) :
  value_Value h s = Ok v →
  has_IsNil (Value_Kind v) = false →
  value_IsNil h s = Panic (ValueError "IsNil" (Value_Kind v)).
Proof.
  intros Hval Hk.
  assert (Hnil : Value_IsNil v s = Panic (ValueError "IsNil" (Value_Kind v))).
  { unfold Value_IsNil. by destruct (Value_Kind v). }
  destruct h as [this|this]; simpl in *.
  - unfold reflectValue_Value in Hval. by injection Hval as ->.
  - unfold mapEntry_IsNil. unbind. by rewrite Hval.
Qed.

(** [IsNil()] on the handle for a key the map has not, and on the handle for
    an int. *)
Lemma IsNil_of_other_kind_panics_witness :
  value_IsNil (ME Example.h) Example.s_empty
  = Panic (ValueError "IsNil" KInvalid) ∧
  value_IsNil (RV Example.two) Example.s_empty
  = Panic (ValueError "IsNil" KInt).
Proof.
  split.
  - apply (IsNil_of_other_kind_panics (ME Example.h) Example.s_empty Zero);
      reflexivity.
  - apply (IsNil_of_other_kind_panics (RV Example.two) Example.s_empty
             Example.two); reflexivity.
Defined.

(** [Elem()] on a [reflectValue], or on a [mapEntry] with a cached element,
    whose value is neither a pointer nor an interface panics with reflect's
    error for the call of [Elem] on that kind. *)
Theorem Elem_of_other_kind_panics (h : value) (s : state) (v : Value) :
  uncached h = false →
  value_Value h s = Ok v →
  has_Elem (Value_Kind v) = false →
  value_Elem h s = Panic (ValueError "Elem" (Value_Kind v)).
Proof.
  intros Hun Hval Hk.
  assert (Helem : Value_Elem v s = Panic (ValueError "Elem" (Value_Kind v))).
  { destruct v as [|t x|t a]; try done; by destruct t. }
  destruct h as [this|[M K [p|] nm]]; simpl in *; try discriminate.
  - unfold reflectValue_Value in Hval. injection Hval as ->.
    unfold reflectValue_Elem. unbind. by rewrite Helem.
  - unfold mapEntry_Elem, mapEntry_Value in *; cbn [elem] in *. unbind.
    by rewrite Hval, Helem.
Qed.

(** [Elem()] on the handle for ["a"] in the map of ints after a first
    [Elem()], and on the handle for an int. *)
Lemma Elem_of_other_kind_panics_witness :
  value_Elem (ME Example.hN_cached) Example.s_int_cached
  = Panic (ValueError "Elem" KInt) ∧
  value_Elem (RV Example.two) Example.s_empty
  = Panic (ValueError "Elem" KInt).
Proof.
  split.
  - apply (Elem_of_other_kind_panics (ME Example.hN_cached)
             Example.s_int_cached (Direct TInt (VInt 1))); reflexivity.
  - apply (Elem_of_other_kind_panics (RV Example.two) Example.s_empty
             Example.two); reflexivity.
Defined.

(** ** Valid and invalid handles *)

(** On a handle for which [IsValid()] returns false, [Value()] is the zero
    Value, and [Interface()], [Len()] and [IsNil()] panic. *)
Theorem invalid_handle_reads_panic (h : value) (s : state) :
  value_IsValid h s = Ok false →
  value_Value h s = Ok Zero ∧
  value_Interface h s = Panic (ValueError "Interface" KInvalid) ∧
  value_Len h s = Panic (ValueError "Len" KInvalid) ∧
  value_IsNil h s = Panic (ValueError "IsNil" KInvalid).
Proof.
  intros Hinv.
  assert (Hval : value_Value h s = Ok Zero).
  { destruct h as [this|this]; simpl in *.
    - injection Hinv as Hinv. by destruct this.
    - unfold mapEntry_IsValid in Hinv. bind_inv Hinv.
      injection Hinv as Hinv. by destruct a. }
  split; [done|].
  destruct h as [this|[M K [p|] nm]]; simpl in *.
  - unfold reflectValue_Value in Hval. by injection Hval as ->.
  - unfold mapEntry_Interface, mapEntry_Len, mapEntry_IsNil,
      mapEntry_Value in *; cbn [elem] in *. unbind. by rewrite Hval.
  - unfold mapEntry_Interface, mapEntry_Len, mapEntry_IsNil,
      mapEntry_Value in *; cbn [elem host key] in *. unbind. by rewrite Hval.
Qed.

Lemma invalid_handle_reads_panic_witness :
  value_Value (ME Example.h) Example.s_empty = Ok Zero ∧
  value_Interface (ME Example.h) Example.s_empty
  = Panic (ValueError "Interface" KInvalid) ∧
  value_Len (ME Example.h) Example.s_empty = Panic (ValueError "Len" KInvalid) ∧
  value_IsNil (ME Example.h) Example.s_empty
  = Panic (ValueError "IsNil" KInvalid).
Proof.
  apply (invalid_handle_reads_panic (ME Example.h) Example.s_empty).
  reflexivity.
Defined.

(** On a handle whose value is valid, [Type()] and [Kind()] are the type and
    the kind of the Value that [Value()] returns: for a [mapEntry] without
    cache, the element type of the host is the type of what [MapIndex]
    returns. *)
Theorem valid_handle_Type_Kind (h : value) (s : state) (v : Value) :
  value_Value h s = Ok v →
  Value_IsValid v = true →
  value_Type h s = Value_Type v ∧
  value_Kind h s = Ok (Value_Kind v).
Proof.
  intros Hval Hvalid.
  destruct h as [this|[M K [p|] nm]]; simpl in *.
  - unfold reflectValue_Value in Hval. injection Hval as ->. done.
  - unfold mapEntry_Kind, mapEntry_Type, mapEntry_Value in *;
      cbn [elem] in *. unbind. rewrite Hval.
    by destruct v.
  - unfold mapEntry_Kind, mapEntry_Type, mapEntry_Value in *;
      cbn [elem host key] in *. unbind.
    destruct (Value_MapIndex_inv _ _ _ _ Hval)
      as [->|(kt & et & x & HM & ->)]; [discriminate|].
    by rewrite HM.
Qed.

Lemma valid_handle_Type_Kind_witness :
  value_Type (ME Example.hI) Example.s_int = Ok TInterface ∧
  value_Kind (ME Example.hI) Example.s_int = Ok KInterface.
Proof.
  apply (valid_handle_Type_Kind (ME Example.hI) Example.s_int
           (Direct TInterface (VIface (Some (TInt, VInt 7)))));
    reflexivity.
Defined.

(** ** [Elem] with and without an entry *)

(** Reading a map at a key it has not, or a nil map, gives the zero Value. *)
Lemma Value_MapIndex_absent (M K : Value) (s : state) (kt et : rtype)
  (k : gval) :
  Value_Type M = Ok (TMap kt et) →
  assignTo K kt s = Ok k →
  hashable k = true →
  (contents M s = Ok (VMap None) ∨
   ∃ m g, contents M s = Ok (VMap (Some m)) ∧
          maps s !! m = Some g ∧ mapaccess k g = None) →
  Value_MapIndex M K s = Ok Zero.
Proof.
  intros HM HK Hh Habsent.
  destruct M as [|tM xM|tM aM]; simpl in HM; try discriminate;
    injection HM as ->; unfold Value_MapIndex; cbv beta iota;
    rewrite HK; unbind;
    destruct Habsent as [Hc|(m & g & Hc & Hg & Hk)]; rewrite Hc, Hh;
    try done; rewrite Hg; simpl; by rewrite Hk.
Qed.

(** On a handle without cache whose key the map has not, [Type()] and
    [Kind()] return the element type of the host and its kind.  [Elem()]
    returns, and on the handle it returns, which caches the zero Value,
    [IsValid()] is false and [Type()] and [Kind()] panic. *)
Theorem mapEntry_Elem_absent_key
  (this : mapEntry) (s : state) (kt et : rtype) (k : gval) :
  elem this = None →
  Value_Type (host this) = Ok (TMap kt et) →
  assignTo (key this) kt s = Ok k →
  hashable k = true →
  (contents (host this) s = Ok (VMap None) ∨
   ∃ m g, contents (host this) s = Ok (VMap (Some m)) ∧
          maps s !! m = Some g ∧ mapaccess k g = None) →
  mapEntry_Type this s = Ok et ∧
  mapEntry_Kind this s = Ok (Type_Kind et) ∧
  ∃ this' s',
    mapEntry_Elem this s = Ok (ME this', s') ∧
    mapEntry_IsValid this' s' = Ok false ∧
    mapEntry_Type this' s' = Panic (ValueError "Type" KInvalid) ∧
    mapEntry_Kind this' s' = Panic (ValueError "Type" KInvalid).
Proof.
  destruct this as [M K c nm]; simpl. intros -> HM HK Hh Habsent.
  pose proof (Value_MapIndex_absent M K s kt et k HM HK Hh Habsent) as Hidx.
  unfold mapEntry_Kind, mapEntry_Type, mapEntry_Elem, mapEntry_IsValid,
    mapEntry_Value; cbn [elem host key]. unbind. rewrite HM, Hidx. simpl.
  split; [done|]. split; [done|].
  exists (mkMapEntry M K (Some (length (vals s))) nm), (alloc Zero s).2.
  split; [reflexivity|]. cbn [elem].
  pose proof (alloc_deref Zero s) as Hcell. cbn [alloc fst] in Hcell.
  by rewrite Hcell.
Qed.

Lemma mapEntry_Elem_absent_key_witness :
  mapEntry_Type Example.h Example.s_empty = Ok (TPtr Example.Record_t) ∧
  mapEntry_Kind Example.h Example.s_empty = Ok KPtr ∧
  ∃ this' s',
    mapEntry_Elem Example.h Example.s_empty = Ok (ME this', s') ∧
    mapEntry_IsValid this' s' = Ok false ∧
    mapEntry_Type this' s' = Panic (ValueError "Type" KInvalid) ∧
    mapEntry_Kind this' s' = Panic (ValueError "Type" KInvalid).
Proof.
  apply (mapEntry_Elem_absent_key Example.h Example.s_empty TString
           (TPtr Example.Record_t) (VString "a")); try reflexivity.
  right. exists 0, []. repeat split.
Defined.

(** With a cached element [c], [Elem()] dereferences [c] and does not read
    the map: in every state with the same memory and the cell, whatever its
    map objects hold, it returns the handle with the same host, key and name
    whose value is [c.Elem()]. *)
Theorem mapEntry_Elem_cached_ignores_map
  (this : mapEntry) (s : state) (p : nat) (c d : Value) (s2 : state) :
  elem this = Some p →
  deref p s = Ok c →
  Value_Elem c s = Ok d →
  mem s2 = mem s →
  deref p s2 = Ok c →
  ∃ this' s2',
    mapEntry_Elem this s2 = Ok (ME this', s2') ∧
    host this' = host this ∧ key this' = key this ∧ name this' = name this ∧
    mapEntry_Value this' s2' = Ok d ∧
    mem s2' = mem s2 ∧ maps s2' = maps s2.
Proof.
  intros Hp Hc Hd Hmem Hc2.
  assert (Hd2 : Value_Elem c s2 = Ok d).
  { rewrite <- Hd. by apply Value_Elem_contents, contents_mem. }
  exists (set_elem this (Some (length (vals s2)))), (alloc d s2).2.
  split.
  - unfold mapEntry_Elem. rewrite Hp. unbind. by rewrite Hc2, Hd2.
  - repeat split. apply (alloc_deref d s2).
Qed.

(** The handle of the example caches the pointer that the map had under
    ["a"]; with the entry deleted from the map, [Elem()] still arrives at the
    record. *)
Lemma mapEntry_Elem_cached_ignores_map_witness :
  let s2 := mkState (mem Example.s_full) [[]] [Example.ptr] in
  ∃ this' s2',
    mapEntry_Elem Example.h_cached s2 = Ok (ME this', s2') ∧
    host this' = Example.M ∧ key this' = Example.K ∧ name this' = "a" ∧
    mapEntry_Value this' s2' = Ok (Indirect Example.Record_t (0, [])) ∧
    mem s2' = mem s2 ∧ maps s2' = maps s2.
Proof.
  apply (mapEntry_Elem_cached_ignores_map Example.h_cached
           Example.s_full_cached 0 Example.ptr
           (Indirect Example.Record_t (0, []))); reflexivity.
Defined.

(** ** Addressability after [Elem] *)

(** What [reflectValue.Elem] returns can be set exactly when the receiver is
    a pointer: what a pointer points to is addressable, what an interface
    contains is a copy. *)
Theorem reflectValue_Elem_CanSet (this : reflectValue) (s : state) (e : Value) :
  reflectValue_Elem this s = Ok (RV e) →
  Value_IsValid e = true →
  Value_CanSet e = match Value_Kind this with KPtr => true | _ => false end.
Proof.
  unfold reflectValue_Elem. unbind. intros H Hvalid.
  destruct (Value_Elem this s) as [e'|] eqn:He; [|discriminate].
  injection H as ->.
  destruct this as [|t x|t a]; simpl in He; try discriminate;
    destruct t; try discriminate; unbind;
    repeat case_match; simplify_eq; done.
Qed.

(** The pointer of the example, and an interface that contains an int. *)
Lemma reflectValue_Elem_CanSet_witness :
  Value_CanSet (Indirect Example.Record_t (0, [])) = true ∧
  Value_CanSet (Direct TInt (VInt 7)) = false.
Proof.
  split.
  - apply (reflectValue_Elem_CanSet Example.ptr Example.s_full); reflexivity.
  - apply (reflectValue_Elem_CanSet
             (Direct TInterface (VIface (Some (TInt, VInt 7))))
             Example.s_full); reflexivity.
Defined.
